(** * SimpleRAG: a shallow embedding of the ingestion and answer pipelines

    The development follows the Python sources module by module:
    - [FileTracking]  : file_tracking.py  (content fingerprint tracker)
    - [FileLoaders]   : file_loaders.py   (per-file extraction)
    - [VectorStore]   : vector_store.py   (knowledge index bootstrap / load)
    - [Ingestion]     : app.py            (scan-then-load head of
                                           initialize_rag_system)
    - [App]           : app.py            (session store, buffered and
                                           streaming answer pipelines)

    External collaborators (MD5, the file-format loaders, the embedding
    model, the Chroma collection, the retriever and the language model) are
    parameters of the model, gathered in environment records.  Exceptions
    are modelled by sums: [inl e] is a raised exception carrying its
    message, [inr v] a normal return. *)

From stdpp Require Import gmap strings list fin_maps pretty.

(** ** Common vocabulary *)

(** A Python exception, represented by its message. *)
Definition exn := string.

(** Result of a call that may raise. *)
Definition result (A : Type) : Type := exn + A.

Definition nl : string := String (Ascii.ascii_of_nat 10) EmptyString.

(** [sep.join(parts)] *)
Fixpoint join (sep : string) (parts : list string) : string :=
  match parts with
  | [] => ""
  | [p] => p
  | p :: rest => p +:+ sep +:+ join sep rest
  end.

(** [l[-n:]] for a positive [n]: the last [n] elements (all of [l] when it is
    shorter). *)
Definition last_n {A} (n : nat) (l : list A) : list A :=
  drop (length l - n) l.

(** [l[:-1]] *)
Definition but_last {A} (l : list A) : list A :=
  take (length l - 1) l.

(** A retrieved or loaded document: the text and the two metadata keys the
    program reads ([source_file], [page]) plus the one it writes
    ([file_path]). *)
Record document := Document {
  page_content : string;
  source_file : option string;
  file_path : option string;
  page : option nat
}.

(** ** Paths *)

Definition dot : Ascii.ascii := Ascii.ascii_of_nat 46.
Definition slash : Ascii.ascii := Ascii.ascii_of_nat 47.

(** [os.path.join(directory, rel)] for a relative [rel]. *)
Definition path_join (directory rel : string) : string :=
  directory +:+ String slash rel.

(** [s.endswith(suffix)] *)
Definition ends_with (suffix s : string) : bool :=
  String.prefix (String.rev suffix) (String.rev s).

(** [sub in s] *)
Fixpoint contains (sub s : string) : bool :=
  String.prefix sub s ||
  match s with
  | EmptyString => false
  | String _ rest => contains sub rest
  end.

(** [os.path.basename(p)]: what follows the last separator. *)
Fixpoint basename (p : string) : string :=
  match p with
  | EmptyString => EmptyString
  | String c rest =>
      if contains (String slash EmptyString) rest then basename rest
      else if decide (c = slash) then rest else p
  end.

(** Split a file name at its last dot: the stem, and the rest from the dot
    on. *)
Fixpoint split_last_dot (s : string) : option (string * string) :=
  match s with
  | EmptyString => None
  | String c rest =>
      match split_last_dot rest with
      | Some (stem, ext) => Some (String c stem, ext)
      | None => if decide (c = dot) then Some (EmptyString, s) else None
      end
  end.

Fixpoint all_dots (s : string) : bool :=
  match s with
  | EmptyString => true
  | String c rest => bool_decide (c = dot) && all_dots rest
  end.

(** [os.path.splitext(p)[1]]: the extension of the last component, leading
    dots of the name not counting as an extension separator. *)
Definition splitext_ext (p : string) : string :=
  match split_last_dot (basename p) with
  | Some (stem, ext) => if all_dots stem then EmptyString else ext
  | None => EmptyString
  end.

Definition lower_ascii (c : Ascii.ascii) : Ascii.ascii :=
  let n := Ascii.nat_of_ascii c in
  if decide (65 ≤ n ≤ 90) then Ascii.ascii_of_nat (n + 32) else c.

(** [s.lower()] on ASCII letters. *)
Fixpoint lower (s : string) : string :=
  match s with
  | EmptyString => EmptyString
  | String c rest => String (lower_ascii c) (lower rest)
  end.

Definition supported_extensions : list string :=
  [".pdf"; ".txt"; ".csv"; ".xlsx"; ".xls"; ".md"; ".markdown"]%string.

(** ** file_tracking.py *)
Module FileTracking.

(** An entry of the watched directory as the scan observes it:
    [os.stat] and the bytes [open(path, "rb")] delivers, or the exception
    reading raises. *)
Record file := File {
  st_size : nat;
  st_mtime : nat;
  contents : result string
}.

(** The record [get_file_metadata] builds. *)
Record tracked_file := TrackedFile {
  size : nat;
  modified_time : nat;
  hash : string;
  last_processed : nat
}.

#[export] Instance tracked_file_eq_dec : EqDecision tracked_file.
Proof. solve_decision. Defined.

(** The manifest: [{"files": {...}, "last_update": ...}]. *)
Record tracking_data := TrackingData {
  files : gmap string tracked_file;
  last_update : nat
}.

(** The tracking JSON on disk. *)
Inductive tracking_file :=
| Absent
| Unparsable
| Saved (d : tracking_data).

(** What a scan reads and writes: the entries below [knowledge_dir] keyed
    by relative path, the tracking file, and the wall clock, which every
    [datetime.now()] reads and advances. *)
Record world := World {
  directory : gmap string file;
  tracking : tracking_file;
  clock : nat
}.

Definition set_tracking (w : world) (t : tracking_file) (c : nat) : world :=
  {| directory := directory w; tracking := t; clock := c |}.

Definition set_clock (w : world) (c : nat) : world :=
  {| directory := directory w; tracking := tracking w; clock := c |}.

(** The digest function of [hashlib.md5] (hex digest of the bytes). *)
Record env := Env { md5_hexdigest : string -> string }.

(** [calculate_file_hash]: reading raises for an unreadable entry. *)
Definition calculate_file_hash (E : env) (dir : gmap string file)
    (rel : string) : result string :=
  match dir !! rel with
  | None => inl "FileNotFoundError"%string
  | Some f =>
      match contents f with
      | inl e => inl e
      | inr bytes => inr (md5_hexdigest E bytes)
      end
  end.

(** [get_file_metadata]: the entry and the advanced clock. *)
Definition get_file_metadata (E : env) (dir : gmap string file)
    (rel : string) (now : nat) : result (tracked_file * nat) :=
  match dir !! rel with
  | None => inl "FileNotFoundError"%string
  | Some f =>
      match calculate_file_hash E dir rel with
      | inl e => inl e
      | inr h =>
          inr ({| size := st_size f; modified_time := st_mtime f;
                  hash := h; last_processed := now |}, S now)
      end
  end.

(** [load_file_tracking]: a missing or unreadable tracking file gives a
    fresh manifest. *)
Definition load_file_tracking (t : tracking_file) (now : nat)
  : tracking_data * nat :=
  match t with
  | Saved d => (d, now)
  | Absent | Unparsable => ({| files := ∅; last_update := now |}, S now)
  end.

(** [save_file_tracking] *)
Definition save_file_tracking (d : tracking_data) (now : nat)
  : tracking_file * nat :=
  (Saved {| files := files d; last_update := now |}, S now).

(** A path is hidden for [glob] when one of its components starts with a
    dot. *)
Definition hidden (rel : string) : bool :=
  String.prefix "." rel || contains (String slash ".") rel.

(** [glob.glob(os.path.join(knowledge_dir, "**/*" + ext), recursive=True)],
    as relative paths. *)
Definition glob_ext (dir : gmap string file) (ext : string) : list string :=
  filter (fun rel => ends_with ext rel && negb (hidden rel) = true)
         (map fst (map_to_list dir)).

(** [current_files], as relative paths. *)
Definition current_rel_paths (dir : gmap string file) : list string :=
  flat_map (glob_ext dir) supported_extensions.

(** The variables of the detection loop. *)
Record scan_state := ScanState {
  tracked_files : gmap string tracked_file;
  new_or_changed_files : list string;
  scan_clock : nat
}.

(** One iteration of the detection loop, for the file at [rel]. *)
Definition check_file (E : env) (knowledge_dir : string)
    (dir : gmap string file) (st : scan_state) (rel : string)
  : result scan_state :=
  let file_path := path_join knowledge_dir rel in
  match tracked_files st !! rel with
  | None =>
      match get_file_metadata E dir rel (scan_clock st) with
      | inl e => inl e
      | inr (meta, now) =>
          inr {| tracked_files := <[rel := meta]> (tracked_files st);
                 new_or_changed_files := new_or_changed_files st ++ [file_path];
                 scan_clock := now |}
      end
  | Some entry =>
      match calculate_file_hash E dir rel with
      | inl e => inl e
      | inr current_hash =>
          if decide (current_hash ≠ hash entry) then
            match get_file_metadata E dir rel (scan_clock st) with
            | inl e => inl e
            | inr (meta, now) =>
                inr {| tracked_files := <[rel := meta]> (tracked_files st);
                       new_or_changed_files :=
                         new_or_changed_files st ++ [file_path];
                       scan_clock := now |}
            end
          else inr st
      end
  end.

(** The detection loop; an exception leaves it at once. *)
Fixpoint check_files (E : env) (knowledge_dir : string)
    (dir : gmap string file) (rels : list string) (st : scan_state)
  : result scan_state :=
  match rels with
  | [] => inr st
  | rel :: rest =>
      match check_file E knowledge_dir dir st rel with
      | inl e => inl e
      | inr st' => check_files E knowledge_dir dir rest st'
      end
  end.

(** The deletion loop: entries whose path is no longer listed are
    dropped. *)
Definition drop_deleted (current : list string)
    (tracked : gmap string tracked_file) : gmap string tracked_file :=
  filter (fun kv => kv.1 ∈ current) tracked.

(** [check_files_changed]: the list returned (or the exception raised)
    and the world left behind. *)
Definition check_files_changed (E : env) (knowledge_dir : string) (w : world)
  : result (list string) * world :=
  let '(tracking_data, now) := load_file_tracking (tracking w) (clock w) in
  let current := current_rel_paths (directory w) in
  let st0 := {| tracked_files := files tracking_data;
                new_or_changed_files := [];
                scan_clock := now |} in
  match check_files E knowledge_dir (directory w) current st0 with
  | inl e => (inl e, set_clock w now)
  | inr st =>
      let tracked := drop_deleted current (tracked_files st) in
      let tracking_data :=
        {| files := tracked; last_update := last_update tracking_data |} in
      let '(saved, now') := save_file_tracking tracking_data (scan_clock st) in
      (inr (new_or_changed_files st), set_tracking w saved now')
  end.

(** The entry stored for [rel] carries the digest of the bytes the file
    holds now. *)
Definition up_to_date (E : env) (dir : gmap string file)
    (tracked : gmap string tracked_file) (rel : string) : Prop :=
  ∃ entry, tracked !! rel = Some entry ∧
           calculate_file_hash E dir rel = inr (hash entry).

(** The loop has not reached [rel] yet: its entry is the stored one and
    its path has not been reported. *)
Definition pending (knowledge_dir rel : string) (entry : tracked_file)
    (st : scan_state) : Prop :=
  tracked_files st !! rel = Some entry ∧
  path_join knowledge_dir rel ∉ new_or_changed_files st.

(** The loop has dealt with [rel], whose bytes now digest to [h]: either
    the digest is the stored one and nothing happened, or the path is
    reported and the entry carries the new digest. *)
Definition settled (knowledge_dir rel : string) (entry : tracked_file)
    (h : string) (st : scan_state) : Prop :=
  (h = hash entry ∧ pending knowledge_dir rel entry st) ∨
  (h ≠ hash entry ∧
   path_join knowledge_dir rel ∈ new_or_changed_files st ∧
   ∃ updated, tracked_files st !! rel = Some updated ∧ hash updated = h).

(** The manifest entries on disk, an absent or unreadable file holding
    none. *)
Definition manifest (w : world) : gmap string tracked_file :=
  match tracking w with
  | Saved d => files d
  | Absent | Unparsable => ∅
  end.

End FileTracking.

(** ** file_loaders.py *)
Module FileLoaders.

Inductive loader :=
| PyPDFLoader
| TextLoader
| CSVLoader
| UnstructuredExcelLoader
| UnstructuredMarkdownLoader.

(** [loader.load()] of the format-specific extractors. *)
Record env := Env { loader_load : loader -> string -> result (list document) }.

(** [get_file_loader]: dispatch on the lower-cased extension. *)
Definition get_file_loader (file_path : string) : option loader :=
  let file_extension := lower (splitext_ext file_path) in
  if decide (file_extension = ".pdf"%string) then Some PyPDFLoader
  else if decide (file_extension = ".txt"%string) then Some TextLoader
  else if decide (file_extension = ".csv"%string) then Some CSVLoader
  else if decide (file_extension ∈ [".xlsx"; ".xls"]%string)
       then Some UnstructuredExcelLoader
  else if decide (file_extension ∈ [".md"; ".markdown"]%string)
       then Some UnstructuredMarkdownLoader
  else None.

(** The metadata written on every loaded document. *)
Definition tag_document (path : string) (d : document) : document :=
  {| page_content := page_content d;
     source_file := Some (basename path);
     file_path := Some path;
     page := page d |}.

(** The [try] body of the loading loop, for one file. *)
Definition load_file (E : env) (path : string) : result (list document) :=
  match get_file_loader path with
  | None => inr []
  | Some l =>
      match loader_load E l path with
      | inl e => inl e
      | inr file_docs => inr (map (tag_document path) file_docs)
      end
  end.

(** [load_specific_documents]: the loop with its per-file [except]. *)
Fixpoint load_into (E : env) (file_paths : list string)
    (documents : list document) : list document :=
  match file_paths with
  | [] => documents
  | path :: rest =>
      match load_file E path with
      | inl _ => load_into E rest documents
      | inr file_docs => load_into E rest (documents ++ file_docs)
      end
  end.

Definition load_specific_documents (E : env) (file_paths : list string)
  : list document :=
  load_into E file_paths [].

End FileLoaders.

(** ** vector_store.py *)
Module VectorStore.

(** An embedding, as an opaque list of coordinates. *)
Definition embedding := list nat.

(** A stored vector with its payload. *)
Record indexed_vector := IndexedVector {
  vector : embedding;
  payload : document
}.

(** The embedding service behind [OllamaEmbeddings]: all texts of a call
    are embedded together, or the call raises. *)
Record env := Env { embed_documents : list string -> result (list embedding) }.

(** The persist directory: the entries that are not Chroma's, and the
    persisted collection when Chroma has written one. *)
Record store_dir := StoreDir {
  other_entries : list string;
  collection : option (list indexed_vector)
}.

(** [os.listdir(vector_store_dir)] *)
Definition listdir (d : store_dir) : list string :=
  other_entries d ++
  match collection d with
  | Some _ => ["chroma.sqlite3"%string]
  | None => []
  end.

(** [os.path.exists(dir) and os.listdir(dir)]; [None] is a missing path. *)
Definition index_exists (disk : option store_dir) : bool :=
  match disk with
  | Some d => bool_decide (listdir d ≠ [])
  | None => false
  end.

(** [Chroma(persist_directory=dir, ...)]: opens the persisted collection,
    creating an empty one when the directory holds none. *)
Definition open_collection (disk : option store_dir) : store_dir :=
  match disk with
  | Some d => {| other_entries := other_entries d;
                 collection := Some (default [] (collection d)) |}
  | None => {| other_entries := []; collection := Some [] |}
  end.

Definition vectors (d : store_dir) : list indexed_vector :=
  default [] (collection d).

(** [vector_store.add_documents(docs)]: embed the texts, then append one
    vector per document under a fresh id. *)
Definition add_documents (E : env) (docs : list document) (d : store_dir)
  : result store_dir :=
  match embed_documents E (map page_content docs) with
  | inl e => inl e
  | inr vs =>
      inr {| other_entries := other_entries d;
             collection :=
               Some (vectors d ++ zip_with IndexedVector vs docs) |}
  end.

(** Python truthiness of the [docs] argument: [None] and [[]] are false. *)
Definition truthy (docs : option (list document)) : bool :=
  match docs with
  | Some (_ :: _) => true
  | _ => false
  end.

(** [initialize_or_load_vector_store]: the store handed back (or the
    exception) and the persist directory left behind. *)
Definition initialize_or_load_vector_store (E : env)
    (docs : option (list document)) (disk : option store_dir)
  : result store_dir * option store_dir :=
  if index_exists disk then
    let vector_store := open_collection disk in
    if truthy docs then
      match add_documents E (default [] docs) vector_store with
      | inl e => (inl e, Some vector_store)
      | inr vector_store' => (inr vector_store', Some vector_store')
      end
    else (inr vector_store, Some vector_store)
  else
    if negb (truthy docs) then
      (inl "首次创建向量存储时必须提供文档"%string, disk)
    else
      let fresh := open_collection disk in
      match add_documents E (default [] docs) fresh with
      | inl e => (inl e, Some fresh)
      | inr vector_store => (inr vector_store, Some vector_store)
      end.

End VectorStore.

(** ** app.py, ingestion *)
Module Ingestion.

(** Steps 1 and 2.1 of [initialize_rag_system]: scan the knowledge
    directory, then load the files the scan reports.  An exception of the
    scan is not caught and leaves the function. *)
Definition scan_and_load (ET : FileTracking.env) (EL : FileLoaders.env)
    (knowledge_dir : string) (w : FileTracking.world)
  : result (list document) * FileTracking.world :=
  match FileTracking.check_files_changed ET knowledge_dir w with
  | (inl e, w') => (inl e, w')
  | (inr changed_files, w') =>
      (inr (FileLoaders.load_specific_documents EL changed_files), w')
  end.

End Ingestion.

(** ** app.py *)
Module App.

Inductive role := User | Assistant.

#[export] Instance role_eq_dec : EqDecision role.
Proof. solve_decision. Defined.

(** One entry of a session history: [{"role": ..., "content": ...}]. *)
Record message := Message { msg_role : role; content : string }.

#[export] Instance message_eq_dec : EqDecision message.
Proof. solve_decision. Defined.

(** [{"file": ..., "page": ...}], the page key being optional. *)
Record source_info := SourceInfo { file : string; src_page : option nat }.

(** The three variables substituted into the prompt template. *)
Record prompt_inputs := PromptInputs {
  p_context : string;
  p_chat_history : string;
  p_question : string
}.

(** What [chain.stream] yields: text fragments, ended either by normal
    exhaustion or by an exception raised by the generation service. *)
Inductive token_stream :=
| Exhausted
| Fragment (chunk : string) (rest : token_stream)
| Broken (e : exn).

(** The buffer of the single [ConversationBufferMemory] owned by the
    chain built in [create_qa_chain_with_memory]: the (question, answer)
    exchanges saved so far, oldest first. *)
Definition chain_memory := list (string * string).

(** External services seen by the request handlers. *)
Record env := Env {
  (** [initialize_rag_system()] raises (scan, index or model set-up). *)
  init_failure : option exn;
  (** [retriever.invoke(question)] *)
  retriever_invoke : string -> result (list document);
  (** [qa_chain.invoke({"question": q})]: the library chain reads its own
      memory and the question, and returns the answer and its source
      documents, or raises. *)
  chain_invoke : chain_memory -> string -> result (string * list document);
  (** [(... | prompt | llm | StrOutputParser()).stream({})] *)
  llm_stream : prompt_inputs -> token_stream
}.

(** The module-level globals of app.py. *)
Record app := AppState {
  (** [qa_chain]: [None] until initialised; otherwise the chain, whose
      only state is its memory. *)
  qa_chain : option chain_memory;
  (** [retriever], [llm] and [prompt] are all set. *)
  streaming_ready : bool;
  chat_history_store : gmap string (list message)
}.

Definition set_store (a : app) (s : gmap string (list message)) : app :=
  {| qa_chain := qa_chain a; streaming_ready := streaming_ready a;
     chat_history_store := s |}.

Definition set_chain (a : app) (m : chain_memory) : app :=
  {| qa_chain := Some m; streaming_ready := streaming_ready a;
     chat_history_store := chat_history_store a |}.

Inductive event :=
| Sources (sources : list source_info)
| Token (token : string)
| End.

#[export] Instance source_info_eq_dec : EqDecision source_info.
Proof. solve_decision. Defined.

#[export] Instance event_eq_dec : EqDecision event.
Proof. solve_decision. Defined.

(** The closure of [generate]: the variables of [stream_query] captured
    by the generator. *)
Record generator := Generator {
  g_session_id : string;
  g_question : string;
  g_docs : list document;
  g_context : string;
  g_history_text : string
}.

(** What a handler hands back to the framework. *)
Inductive response :=
| JsonError (message : string)
| JsonSuccess (answer : string) (sources : list source_info)
| EventStream (g : generator)
| Unhandled (e : exn).

Definition is_error (r : response) : bool :=
  match r with
  | JsonError _ | Unhandled _ => true
  | _ => false
  end.

Definition is_stream (r : response) : bool :=
  match r with EventStream _ => true | _ => false end.

(** [initialize_rag_system]: on success every global is (re)bound, the
    chain coming with a fresh memory, and the function returns
    [qa_chain is not None]. *)
Definition initialize_rag_system (E : env) (a : app) : result (bool * app) :=
  match init_failure E with
  | Some e => inl e
  | None =>
      let a' := {| qa_chain := Some []; streaming_ready := true;
                   chat_history_store := chat_history_store a |} in
      inr (bool_decide (is_Some (qa_chain a')), a')
  end.

(** The source list sent to the client. *)
Definition format_sources (docs : list document) : list source_info :=
  map (fun d => {| file := default "未知文件" (source_file d);
                   src_page := page d |}) docs.

(** [chat_history_store[session_id].append(m)] followed by nothing else. *)
Definition append_message (sid : string) (m : message)
    (s : gmap string (list message)) : result (gmap string (list message)) :=
  match s !! sid with
  | Some h => inr (<[sid := h ++ [m]]> s)
  | None => inl "KeyError"
  end.

(** [if len(store[sid]) > 20: store[sid] = store[sid][-20:]] *)
Definition limit_history (sid : string)
    (s : gmap string (list message)) : result (gmap string (list message)) :=
  match s !! sid with
  | Some h =>
      if decide (20 < length h) then inr (<[sid := last_n 20 h]> s) else inr s
  | None => inl "KeyError"
  end.

(** [if session_id not in chat_history_store: chat_history_store[session_id] = []] *)
Definition ensure_session (sid : string)
    (s : gmap string (list message)) : gmap string (list message) :=
  match s !! sid with
  | Some _ => s
  | None => <[sid := []]> s
  end.

(** The [except] arm of [query]:
    [if session_id in store and store[session_id]: store[session_id].pop()] *)
Definition rollback_query (sid : string)
    (s : gmap string (list message)) : gmap string (list message) :=
  match s !! sid with
  | Some ((_ :: _) as h) => <[sid := but_last h]> s
  | _ => s
  end.

(** The [try] body of [query]: the store and the chain memory it leaves,
    and what it returns or raises. *)
Definition query_body (E : env) (question sid : string) (mem : chain_memory)
    (s0 : gmap string (list message))
  : gmap string (list message) * chain_memory * result (string * list source_info) :=
  let s1 := ensure_session sid s0 in
  match append_message sid (Message User question) s1 with
  | inl e => (s1, mem, inl e)
  | inr s2 =>
      match chain_invoke E mem question with
      | inl e => (s2, mem, inl e)
      | inr (answer, source_docs) =>
          (* the chain saves the exchange into its memory before returning *)
          let mem' := mem ++ [(question, answer)] in
          match append_message sid (Message Assistant answer) s2 with
          | inl e => (s2, mem', inl e)
          | inr s3 =>
              match limit_history sid s3 with
              | inl e => (s3, mem', inl e)
              | inr s4 => (s4, mem', inr (answer, format_sources source_docs))
              end
          end
      end
  end.

(** [query()], the buffered endpoint. *)
Definition query (E : env) (question sid : string) (a : app) : response * app :=
  let proceed (a : app) (mem : chain_memory) :=
    if decide (question = ""%string) then (JsonError "问题不能为空", a)
    else
      match query_body E question sid mem (chat_history_store a) with
      | (s, mem', inr (answer, sources)) =>
          (JsonSuccess answer sources, set_chain (set_store a s) mem')
      | (s, mem', inl e) =>
          (JsonError ("查询处理错误: " +:+ e),
           set_chain (set_store a (rollback_query sid s)) mem')
      end in
  match qa_chain a with
  | Some mem => proceed a mem
  | None =>
      match initialize_rag_system E a with
      | inl e => (Unhandled e, a)
      | inr (false, a') => (JsonError "RAG系统初始化失败", a')
      | inr (true, a') =>
          match qa_chain a' with
          | Some mem => proceed a' mem
          | None => (Unhandled "TypeError", a')
          end
      end
  end.

(** The history rendering loop of [stream_query]: consecutive pairs of
    entries, by position. *)
Fixpoint render_history (history : list message) : string :=
  match history with
  | m1 :: m2 :: rest =>
      "用户: " +:+ content m1 +:+ nl +:+
      "助手: " +:+ content m2 +:+ nl +:+ nl +:+ render_history rest
  | _ => ""
  end.

(** The [except] arm of [stream_query]:
    [if store[session_id]: store[session_id].pop()] *)
Definition rollback_stream (sid : string)
    (s : gmap string (list message)) : gmap string (list message) :=
  match s !! sid with
  | Some ((_ :: _) as h) => <[sid := but_last h]> s
  | _ => s
  end.

(** [stream_query()]: everything the view function does before it
    returns the (not yet started) generator to the framework. *)
Definition stream_query (E : env) (question sid : string) (a : app) : response * app :=
  let proceed (a : app) :=
    if decide (question = ""%string) then (JsonError "问题不能为空", a)
    else
      let s1 := ensure_session sid (chat_history_store a) in
      match append_message sid (Message User question) s1 with
      | inl e => (Unhandled e, set_store a s1)
      | inr s2 =>
          match retriever_invoke E question with
          | inl e =>
              (JsonError ("流式查询处理错误: " +:+ e),
               set_store a (rollback_stream sid s2))
          | inr docs =>
              let context := join (nl +:+ nl) (map page_content docs) in
              let history := but_last (default [] (s2 !! sid)) in
              let history_text := render_history history in
              (EventStream {| g_session_id := sid; g_question := question;
                              g_docs := docs; g_context := context;
                              g_history_text := history_text |},
               set_store a s2)
          end
      end in
  if streaming_ready a then proceed a
  else
    match initialize_rag_system E a with
    | inl e => (Unhandled e, a)
    | inr (false, a') => (JsonError "RAG系统初始化失败", a')
    | inr (true, a') => proceed a'
    end.

(** The token loop of [generate]: [answer += chunk; yield token]. *)
Fixpoint stream_tokens (ts : token_stream) (answer : string)
  : list event * result string :=
  match ts with
  | Exhausted => ([], inr answer)
  | Broken e => ([], inl e)
  | Fragment chunk rest =>
      let '(evs, r) := stream_tokens rest (answer +:+ chunk) in
      (Token chunk :: evs, r)
  end.

(** The fragments a stream yields, in the order it yields them. *)
Fixpoint fragments (ts : token_stream) : list string :=
  match ts with
  | Fragment chunk rest => chunk :: fragments rest
  | _ => []
  end.

(** The stream runs to exhaustion without raising. *)
Fixpoint unbroken (ts : token_stream) : bool :=
  match ts with
  | Exhausted => true
  | Fragment _ rest => unbroken rest
  | Broken _ => false
  end.

(** String concatenation of a list of fragments. *)
Definition concat_fragments (l : list string) : string :=
  foldr String.app "" l.

(** The chain of [generate] feeds the prompt from three constant lambdas. *)
Definition gen_inputs (g : generator) : prompt_inputs :=
  {| p_context := g_context g;
     p_chat_history := g_history_text g;
     p_question := g_question g |}.

(** How a run of the generator ends. *)
Inductive completion := Finished | Raised (e : exn).

(** [generate()] consumed to its end by the framework: the events
    yielded, how the generator ended, and the store it leaves.  The body
    runs outside the [try] of [stream_query], which has returned by then. *)
Definition generate (E : env) (g : generator) (s : gmap string (list message))
  : list event * completion * gmap string (list message) :=
  let first := Sources (format_sources (g_docs g)) in
  match stream_tokens (llm_stream E (gen_inputs g)) "" with
  | (toks, inl e) => (first :: toks, Raised e, s)
  | (toks, inr answer) =>
      match append_message (g_session_id g) (Message Assistant answer) s with
      | inl e => (first :: toks, Raised e, s)
      | inr s1 =>
          match limit_history (g_session_id g) s1 with
          | inl e => (first :: toks, Raised e, s1)
          | inr s2 => (first :: toks ++ [End], Finished, s2)
          end
      end
  end.

(** A whole streaming request: the view function, then the framework
    draining the generator. *)
Definition stream_call (E : env) (question sid : string) (a : app)
  : response * option (list event * completion) * app :=
  match stream_query E question sid a with
  | (EventStream g, a1) =>
      let '(evs, c, s) := generate E g (chat_history_store a1) in
      (EventStream g, Some (evs, c), set_store a1 s)
  | (r, a1) => (r, None, a1)
  end.

(** [get_history(session_id)] *)
Definition get_history (sid : string) (a : app) : list message :=
  default [] (chat_history_store a !! sid).

(** [clear_history(session_id)] *)
Definition clear_history (sid : string) (a : app) : app :=
  set_store a (<[sid := []]> (chat_history_store a)).

(** A client request that opens a question/answer round-trip. *)
Inductive call :=
| Buffered (question sid : string)
| Streamed (question sid : string).

Definition call_session (c : call) : string :=
  match c with Buffered _ sid | Streamed _ sid => sid end.

Definition call_question (c : call) : string :=
  match c with Buffered q _ | Streamed q _ => q end.

(** One round-trip: the state and the answer when it succeeds (a success
    response, or a stream drained up to its end event), [None] otherwise. *)
Definition round_trip (E : env) (c : call) (a : app) : option (string * app) :=
  match c with
  | Buffered q sid =>
      match query E q sid a with
      | (JsonSuccess answer _, a') => Some (answer, a')
      | _ => None
      end
  | Streamed q sid =>
      match stream_call E q sid a with
      | (EventStream g, Some (_, Finished), a') =>
          Some (concat_fragments (fragments (llm_stream E (gen_inputs g))), a')
      | _ => None
      end
  end.

(** A sequence of round-trips, each of which succeeds. *)
Fixpoint round_trips (E : env) (cs : list call) (a : app) : option app :=
  match cs with
  | [] => Some a
  | c :: cs' =>
      match round_trip E c a with
      | Some (_, a') => round_trips E cs' a'
      | None => None
      end
  end.

End App.

(** ** Sample data *)
Module Fixtures.
Import App.

Definition paris_doc : document :=
  {| page_content := "Paris is the capital of France.";
     source_file := Some "notes.txt"%string;
     file_path := Some "./knowledge_base/notes.txt"%string;
     page := None |}.

Definition paris_question : string := "What is the capital of France?".

(** The generator [stream_query] builds for the first question of
    session s1. *)
Definition paris_generator : generator :=
  {| g_session_id := "s1"; g_question := paris_question;
     g_docs := [paris_doc];
     g_context := "Paris is the capital of France.";
     g_history_text := "" |}.

(** The globals at process start. *)
Definition started : app :=
  {| qa_chain := None; streaming_ready := false; chat_history_store := ∅ |}.

(** A generation service stubbed with fixed fragments. *)
Definition paris_env : env :=
  {| init_failure := None;
     retriever_invoke := fun _ => inr [paris_doc];
     chain_invoke := fun _ _ => inr ("Paris is the capital."%string, [paris_doc]);
     llm_stream := fun _ =>
       Fragment "Paris" (Fragment " is" (Fragment " the capital." Exhausted)) |}.

(** A generation service that breaks after its first fragment. *)
Definition breaking_env : env :=
  {| init_failure := None;
     retriever_invoke := fun _ => inr [paris_doc];
     chain_invoke := fun _ _ => inl "connection lost"%string;
     llm_stream := fun _ => Fragment "Paris" (Broken "connection lost") |}.

(** A chain that answers with the questions it finds in its memory. *)
Definition echo_env : env :=
  {| init_failure := None;
     retriever_invoke := fun _ => inr [];
     chain_invoke := fun mem _ => inr (join "|" (map fst mem), []);
     llm_stream := fun _ => Exhausted |}.

(** A session at the cap: ten question/answer pairs. *)
Definition ten_pairs : list message :=
  mjoin (replicate 10 [Message User "q"; Message Assistant "a"]).

Definition at_cap : app :=
  {| qa_chain := Some []; streaming_ready := true;
     chat_history_store := {[ "s1"%string := ten_pairs ]} |}.

(** ** Sample knowledge directories *)

(** A digest stand-in for the examples: the bytes themselves. *)
Definition plain_digest : FileTracking.env :=
  {| FileTracking.md5_hexdigest := fun bytes => bytes |}.

Definition kb : string := "./knowledge_base".

(** Two readable text files, nothing tracked yet. *)
Definition two_files : FileTracking.world :=
  {| FileTracking.directory :=
       {[ "a.txt"%string := FileTracking.File 5 100 (inr "alpha"%string);
          "b.txt"%string := FileTracking.File 4 100 (inr "beta"%string) ]};
     FileTracking.tracking := FileTracking.Absent;
     FileTracking.clock := 0 |}.

(** The same directory once scanned. *)
Definition two_files_scanned : FileTracking.world :=
  (FileTracking.check_files_changed plain_digest kb two_files).2.

(** [b.txt] rewritten with other bytes of the same length, its
    modification time put back. *)
Definition b_rewritten : FileTracking.world :=
  {| FileTracking.directory :=
       <[ "b.txt"%string := FileTracking.File 4 100 (inr "BETA"%string) ]>
         (FileTracking.directory two_files_scanned);
     FileTracking.tracking := FileTracking.tracking two_files_scanned;
     FileTracking.clock := FileTracking.clock two_files_scanned |}.

(** [b.txt] cannot be read. *)
Definition b_unreadable : FileTracking.world :=
  {| FileTracking.directory :=
       <[ "b.txt"%string :=
            FileTracking.File 4 100 (inl "PermissionError"%string) ]>
         (FileTracking.directory two_files_scanned);
     FileTracking.tracking := FileTracking.tracking two_files_scanned;
     FileTracking.clock := FileTracking.clock two_files_scanned |}.

(** Extractors that fail on [b.txt] and yield one document otherwise. *)
Definition b_fails : FileLoaders.env :=
  {| FileLoaders.loader_load := fun _ path =>
       if decide (path = "./knowledge_base/b.txt"%string)
       then inl "UnicodeDecodeError"%string
       else inr [Document "text" None None None] |}.

(** An embedding stand-in: one coordinate, the length of the text. *)
Definition length_embedding : VectorStore.env :=
  {| VectorStore.embed_documents := fun texts =>
       inr (map (fun t => [String.length t]) texts) |}.

(** A persist directory holding one vector. *)
Definition one_vector : VectorStore.store_dir :=
  {| VectorStore.other_entries := ["file_tracking.json"%string];
     VectorStore.collection :=
       Some [VectorStore.IndexedVector [7] paris_doc] |}.

(** An existing but empty persist directory. *)
Definition empty_dir : VectorStore.store_dir :=
  {| VectorStore.other_entries := []; VectorStore.collection := None |}.

(** [at_cap] after one buffered round-trip, then after a streamed one. *)
Definition after_one : app :=
  default at_cap (round_trips paris_env [Buffered "q11" "s1"] at_cap).

Definition after_two : app :=
  default at_cap
    (round_trips paris_env [Buffered "q11" "s1"; Streamed "q12" "s1"] at_cap).

End Fixtures.

(** ** Shapes of a session history *)
Module Sessions.
Import App.

(** Question/answer pairs in order: a user entry, then an assistant entry,
    and so on to the end. *)
Fixpoint paired (history : list message) : bool :=
  match history with
  | [] => true
  | m1 :: m2 :: rest =>
      bool_decide (msg_role m1 = User) &&
      bool_decide (msg_role m2 = Assistant) && paired rest
  | _ => false
  end.

(** A store in which [sid] names an existing session of one pair. *)
Definition one_pair : app :=
  {| qa_chain := Some [("q0", "a0")%string]; streaming_ready := true;
     chat_history_store :=
       {[ "s1"%string := [Message User "q0"; Message Assistant "a0"] ]} |}.

(** A retriever that is down. *)
Definition retriever_down : env :=
  {| init_failure := None;
     retriever_invoke := fun _ => inl "connection refused"%string;
     chain_invoke := fun _ _ => inl "connection refused"%string;
     llm_stream := fun _ => Exhausted |}.

(** A fresh process after a buffered and then a streamed round-trip. *)
Definition two_trips : app :=
  default Fixtures.started
    (round_trips Fixtures.paris_env
       [Buffered "q1" "s1"; Streamed "q2" "s2"] Fixtures.started).

End Sessions.

(** ** The test of the detection loop *)
Module Scan.
Import FileTracking.

(** The condition under which the detection loop reports the file at
    [rel] and rewrites its entry: no entry yet, or an entry whose digest is
    not the one the file has now. *)
Definition needs_update (E : env) (dir : gmap string file)
    (tracked : gmap string tracked_file) (rel : string) : bool :=
  match tracked !! rel with
  | None => true
  | Some entry =>
      match calculate_file_hash E dir rel with
      | inr current_hash => bool_decide (current_hash ≠ hash entry)
      | inl _ => true
      end
  end.

(** A knowledge directory with a hidden file, a file below a hidden
    directory, a file of an unsupported type and two supported files, and a
    manifest that knows [notes.txt] and a file that is gone. *)
Definition mixed : world :=
  {| directory :=
       {[ "notes.txt"%string := File 5 100 (inr "alpha"%string);
          ".secret.txt"%string := File 1 100 (inr "s"%string);
          "img/logo.png"%string := File 2 100 (inr "pn"%string);
          "docs/.cache/x.md"%string := File 1 100 (inr "c"%string);
          "docs/guide.md"%string := File 5 100 (inr "guide"%string) ]};
     tracking :=
       Saved {| files :=
                  {[ "notes.txt"%string := TrackedFile 5 100 "alpha" 1;
                     "gone.txt"%string := TrackedFile 3 90 "old" 1 ]};
                last_update := 2 |};
     clock := 7 |}.

(** The same directory with a tracking file that does not parse. *)
Definition mixed_unparsable : world :=
  {| directory := directory mixed; tracking := Unparsable; clock := 7 |}.

End Scan.

(** ** app.py, building the vector store at start-up *)
Module Startup.
Import FileTracking VectorStore.

(** The collaborators of the ingestion steps. *)
Record env := Env {
  tracker : FileTracking.env;
  loaders : FileLoaders.env;
  (** [split_documents]: the recursive character splitter, with its default
      chunk size and overlap. *)
  split_documents : list document → list document;
  embedder : VectorStore.env
}.

(** What the ingestion steps find on disk: the knowledge directory with the
    tracking file and the clock, and the collection Chroma has persisted
    (if any) in the vector store directory. *)
Record disk := Disk {
  knowledge : world;
  chroma : option (list indexed_vector)
}.

(** [VECTOR_STORE_DIR].  The directory is created when the module is
    imported; [FILE_TRACKING_JSON] is a file of this very directory, so the
    tracking file, once written, is one of its entries. *)
Definition vector_store_dir (d : disk) : option store_dir :=
  Some {| other_entries :=
            match tracking (knowledge d) with
            | Absent => []
            | Unparsable | Saved _ => ["file_tracking.json"%string]
            end;
          collection := chroma d |}.

(** [load_documents_from_directory]: the same listing as the scan and the
    same loading loop as [load_specific_documents]. *)
Definition load_documents_from_directory (EL : FileLoaders.env)
    (directory_path : string) (dir : gmap string file) : list document :=
  FileLoaders.load_into EL
    (map (path_join directory_path) (current_rel_paths dir)) [].

(** The disk after [initialize_or_load_vector_store] has left [persisted]
    in the vector store directory. *)
Definition store_back (d : disk) (persisted : option store_dir) : disk :=
  {| knowledge := knowledge d;
     chroma := match persisted with
               | Some sd => collection sd
               | None => chroma d
               end |}.

(** Steps 1 and 2 of [initialize_rag_system]: scan, then update, load or
    create the vector store. *)
Definition build_vector_store (E : env) (knowledge_dir : string) (d : disk)
  : result store_dir * disk :=
  match check_files_changed (tracker E) knowledge_dir (knowledge d) with
  | (inl e, w') => (inl e, {| knowledge := w'; chroma := chroma d |})
  | (inr changed_files, w') =>
      let d1 := {| knowledge := w'; chroma := chroma d |} in
      let run docs :=
        let '(r, persisted) :=
          initialize_or_load_vector_store (embedder E) docs (vector_store_dir d1) in
        (r, store_back d1 persisted) in
      match changed_files with
      | _ :: _ =>
          let documents :=
            FileLoaders.load_specific_documents (loaders E) changed_files in
          let chunked_documents := split_documents E documents in
          run (Some chunked_documents)
      | [] =>
          if index_exists (vector_store_dir d1) then run None
          else
            let documents :=
              load_documents_from_directory (loaders E) knowledge_dir
                (directory w') in
            let chunked_documents := split_documents E documents in
            run (Some chunked_documents)
      end
  end.

(** The vectors persisted on a disk. *)
Definition persisted_vectors (d : disk) : list indexed_vector :=
  default [] (chroma d).

(** A splitter stand-in that leaves documents whole. *)
Definition whole_documents : list document → list document := fun docs => docs.

Definition sample_env : env :=
  {| tracker := Fixtures.plain_digest; loaders := Fixtures.b_fails;
     split_documents := whole_documents; embedder := Fixtures.length_embedding |}.

(** The same collaborators with an embedding service that is down. *)
Definition embedder_down : env :=
  {| tracker := Fixtures.plain_digest; loaders := Fixtures.b_fails;
     split_documents := whole_documents;
     embedder := {| embed_documents := fun _ => inl "connection refused"%string |} |}.

(** A fresh installation: an empty knowledge directory, no tracking file,
    no collection. *)
Definition fresh_install : disk :=
  {| knowledge := {| directory := ∅; tracking := Absent; clock := 0 |};
     chroma := None |}.

(** Two text files waiting to be ingested, one stored vector of an
    earlier version. *)
Definition first_run : disk :=
  {| knowledge := Fixtures.two_files;
     chroma := Some [IndexedVector [7] Fixtures.paris_doc] |}.

Definition after_first_run : disk :=
  (build_vector_store sample_env Fixtures.kb first_run).2.

End Startup.

(** ** terminal_version.py and the history display of qa_chain.py *)
Module Terminal.

(** [format_source_documents] (file_loaders.py): one numbered line per
    source, with the page when the document has one. *)
Definition format_source_documents (source_documents : list document) : string :=
  join nl
    (imap (fun i doc =>
             let source :=
               "[" +:+ pretty (S i) +:+ "] " +:+
               default "未知文件"%string (source_file doc) in
             match page doc with
             | Some p => source +:+ " (第 " +:+ pretty p +:+ " 页)"
             | None => source
             end)
          source_documents).

(** [display_chat_history] (qa_chain.py), as the strings it prints: the
    header, then one line per entry, labelled by the parity of its index. *)
Definition display_chat_history (chat_history : list string) : list string :=
  (nl +:+ "=== 对话历史 ===") ::
  imap (fun i message =>
          (if Nat.even i then "用户" else "系统") +:+ ": " +:+ message)
       chat_history.

(** The variables the loop of [main] carries: the display history and the
    chain, whose state is its memory. *)
Record state := State {
  chat_history : list string;
  memory : App.chain_memory
}.

(** One pass through the loop body for the line [query]: [None] when the
    loop is left, otherwise the new state and the strings printed. *)
Definition turn (E : App.env) (query : string) (st : state)
  : option (state * list string) :=
  if decide (lower query = "exit"%string) then None
  else if decide (lower query = "history"%string) then
    Some (st, display_chat_history (chat_history st))
  else
    let asked := chat_history st ++ [query] in
    match App.chain_invoke E (memory st) query with
    | inr (answer, source_docs) =>
        Some ({| chat_history := asked ++ [answer];
                 memory := memory st ++ [(query, answer)] |},
              [nl +:+ "回答:"; answer; nl +:+ "知识来源:";
               format_source_documents source_docs]%string)
    | inl e =>
        Some ({| chat_history := match asked with
                                 | [] => asked
                                 | _ :: _ => but_last asked
                                 end;
                 memory := memory st |},
              ["查询出错: " +:+ e])
    end.

(** The loop over the lines typed, up to [exit] or the end of the input:
    the state it ends in and everything printed. *)
Fixpoint run (E : App.env) (lines : list string) (st : state)
  : state * list string :=
  match lines with
  | [] => (st, [])
  | query :: rest =>
      match turn E query st with
      | None => (st, [])
      | Some (st', printed) =>
          let '(final, more) := run E rest st' in (final, printed ++ more)
      end
  end.


(** The display history that lists the exchanges one after the other. *)
Definition exchanges_flat (exchanges : list (string * string)) : list string :=
  exchanges ≫= (fun qa => [qa.1; qa.2]).

(** A chain that fails on the question "boom" and answers "ok" otherwise. *)
Definition moody_env : App.env :=
  {| App.init_failure := None;
     App.retriever_invoke := fun _ => inr [];
     App.chain_invoke := fun _ q =>
       if decide (q = "boom"%string) then inl "timeout"%string
       else inr ("ok"%string, [Fixtures.paris_doc]);
     App.llm_stream := fun _ => App.Exhausted |}.

End Terminal.

(** * Properties *)

(** ** Strings and lists *)

Lemma string_app_nil_r (s : string) : s +:+ "" = s.
Proof.
  induction s as [|c s IH]; [reflexivity|].
  change (String c s +:+ "") with (String c (s +:+ "")). by rewrite IH.
Qed.

Lemma string_app_assoc (s t u : string) : (s +:+ t) +:+ u = s +:+ (t +:+ u).
Proof.
  induction s as [|c s IH]; [reflexivity|].
  change (String c ((s +:+ t) +:+ u) = String c (s +:+ (t +:+ u))).
  by rewrite IH.
Qed.

Lemma last_n_short {A} (n : nat) (l : list A) : length l ≤ n → last_n n l = l.
Proof. intros H. unfold last_n. by replace (length l - n) with 0 by lia. Qed.

Lemma last_n_length {A} (n : nat) (l : list A) : length (last_n n l) ≤ n.
Proof. unfold last_n. rewrite length_drop. lia. Qed.

Lemma last_n_last {A} (n : nat) (l : list A) : 0 < n → last (last_n n l) = last l.
Proof.
  intros Hn. unfold last_n. rewrite !last_lookup, length_drop, lookup_drop.
  destruct (decide (length l = 0)) as [H0|H0].
  - apply length_zero_iff_nil in H0. by subst.
  - f_equal. lia.
Qed.

Lemma but_last_snoc {A} (l : list A) (x : A) : but_last (l ++ [x]) = l.
Proof.
  unfold but_last. rewrite length_app. simpl.
  replace (length l + 1 - 1) with (length l) by lia.
  by rewrite take_app_length.
Qed.

(** ** The answer pipelines *)
Section AppFacts.
Import App.
Variable E : env.

Lemma initialize_rag_system_eq (a : app) :
  initialize_rag_system E a =
  match init_failure E with
  | Some e => inl e
  | None => inr (true, {| qa_chain := Some []; streaming_ready := true;
                          chat_history_store := chat_history_store a |})
  end.
Proof. unfold initialize_rag_system. by destruct (init_failure E). Qed.

Lemma ensure_session_lookup (sid : string) (s : gmap string (list message)) :
  ensure_session sid s !! sid = Some (default [] (s !! sid)).
Proof.
  unfold ensure_session. destruct (s !! sid) eqn:H; [done|].
  by rewrite lookup_insert_eq.
Qed.

Lemma ensure_session_other (sid sid' : string) (s : gmap string (list message)) :
  sid' ≠ sid → ensure_session sid s !! sid' = s !! sid'.
Proof.
  intros Hne. unfold ensure_session. destruct (s !! sid); [done|].
  by rewrite lookup_insert_ne.
Qed.

Lemma append_message_Some (sid : string) (m : message) (h : list message)
    (s : gmap string (list message)) :
  s !! sid = Some h → append_message sid m s = inr (<[sid := h ++ [m]]> s).
Proof. intros H. unfold append_message. by rewrite H. Qed.

Lemma limit_history_Some (sid : string) (h : list message)
    (s : gmap string (list message)) :
  s !! sid = Some h → limit_history sid s = inr (<[sid := last_n 20 h]> s).
Proof.
  intros H. unfold limit_history. rewrite H. case_decide; [done|].
  rewrite last_n_short by lia. by rewrite insert_id.
Qed.

Lemma stream_tokens_unbroken (ts : token_stream) (acc : string) :
  unbroken ts = true →
  stream_tokens ts acc =
    (map Token (fragments ts), inr (acc +:+ concat_fragments (fragments ts))).
Proof.
  revert acc. induction ts as [|chunk rest IH|e]; intros acc Hu; simpl in *.
  - unfold concat_fragments. simpl. by rewrite string_app_nil_r.
  - rewrite (IH _ Hu). unfold concat_fragments. simpl.
    by rewrite string_app_assoc.
  - done.
Qed.

Lemma stream_tokens_broken (ts : token_stream) (acc : string) :
  unbroken ts = false →
  ∃ e, stream_tokens ts acc = (map Token (fragments ts), inl e).
Proof.
  revert acc. induction ts as [|chunk rest IH|e]; intros acc Hu; simpl in *.
  - done.
  - destruct (IH (acc +:+ chunk) Hu) as [e ->]. by exists e.
  - by exists e.
Qed.

End AppFacts.

Section PipelineFacts.
Import App.
Variable E : env.

(** The user append at the head of both pipelines. *)
Lemma append_user (sid question : string) (s : gmap string (list message)) :
  append_message sid (Message User question) (ensure_session sid s) =
  inr (<[sid := default [] (s !! sid) ++ [Message User question]]> s).
Proof.
  rewrite (append_message_Some _ _ _ _ (ensure_session_lookup sid s)).
  f_equal. unfold ensure_session.
  destruct (s !! sid); [done|]. by rewrite insert_insert_eq.
Qed.

Lemma generate_unbroken (g : generator) (h : list message)
    (s : gmap string (list message)) :
  s !! g_session_id g = Some h →
  unbroken (llm_stream E (gen_inputs g)) = true →
  let frags := fragments (llm_stream E (gen_inputs g)) in
  generate E g s =
    (Sources (format_sources (g_docs g)) :: map Token frags ++ [End],
     Finished,
     <[g_session_id g :=
         last_n 20 (h ++ [Message Assistant (concat_fragments frags)])]> s).
Proof.
  intros Hs Hu frags. unfold generate.
  rewrite (stream_tokens_unbroken _ _ Hu).
  change ("" +:+ concat_fragments (fragments (llm_stream E (gen_inputs g))))
    with (concat_fragments frags).
  rewrite (append_message_Some _ _ _ _ Hs).
  erewrite limit_history_Some by apply lookup_insert_eq.
  by rewrite insert_insert_eq.
Qed.

Lemma generate_broken (g : generator) (s : gmap string (list message)) :
  unbroken (llm_stream E (gen_inputs g)) = false →
  ∃ e, generate E g s =
    (Sources (format_sources (g_docs g))
       :: map Token (fragments (llm_stream E (gen_inputs g))),
     Raised e, s).
Proof.
  intros Hu. unfold generate.
  destruct (stream_tokens_broken _ "" Hu) as [e ->]. by exists e.
Qed.

(** What [stream_query] has done when it hands a generator back. *)
Lemma stream_query_stream (question sid : string) (a a1 : app) (g : generator) :
  stream_query E question sid a = (EventStream g, a1) →
  question ≠ ""%string ∧
  g_session_id g = sid ∧ g_question g = question ∧
  retriever_invoke E question = inr (g_docs g) ∧
  g_history_text g = render_history (get_history sid a) ∧
  chat_history_store a1 =
    <[sid := get_history sid a ++ [Message User question]]> (chat_history_store a).
Proof.
  unfold stream_query, get_history.
  assert (∀ b : app, chat_history_store b = chat_history_store a →
    (if decide (question = ""%string) then (JsonError "问题不能为空", b)
     else
       let s1 := ensure_session sid (chat_history_store b) in
       match append_message sid (Message User question) s1 with
       | inl e => (Unhandled e, set_store b s1)
       | inr s2 =>
           match retriever_invoke E question with
           | inl e => (JsonError ("流式查询处理错误: " +:+ e),
                       set_store b (rollback_stream sid s2))
           | inr docs =>
               (EventStream
                  {| g_session_id := sid; g_question := question;
                     g_docs := docs;
                     g_context := join (nl +:+ nl) (map page_content docs);
                     g_history_text :=
                       render_history (but_last (default [] (s2 !! sid))) |},
                set_store b s2)
           end
       end) = (EventStream g, a1) →
    question ≠ ""%string ∧ g_session_id g = sid ∧ g_question g = question ∧
    retriever_invoke E question = inr (g_docs g) ∧
    g_history_text g = render_history (default [] (chat_history_store a !! sid)) ∧
    chat_history_store a1 =
      <[sid := default [] (chat_history_store a !! sid) ++ [Message User question]]>
        (chat_history_store a)) as Hproceed.
  { intros b Hb. case_decide as Hq; [done|]. cbv zeta.
    rewrite append_user, Hb.
    destruct (retriever_invoke E question) as [e|docs]; [done|].
    intros [= <- <-]. simpl.
    rewrite lookup_insert_eq. simpl. by rewrite but_last_snoc. }
  destruct (streaming_ready a).
  - by apply Hproceed.
  - rewrite initialize_rag_system_eq. destruct (init_failure E); [done|].
    intros H. by eapply Hproceed; [|exact H].
Qed.

(** What [query] has done when it answers. *)
Lemma query_success (question sid answer : string) (sources : list source_info)
    (a a' : app) :
  query E question sid a = (JsonSuccess answer sources, a') →
  question ≠ ""%string ∧
  chat_history_store a' =
    <[sid := last_n 20 (get_history sid a ++
               [Message User question; Message Assistant answer])]>
      (chat_history_store a).
Proof.
  unfold query, get_history.
  assert (∀ (b : app) (mem : chain_memory),
    chat_history_store b = chat_history_store a →
    (if decide (question = ""%string) then (JsonError "问题不能为空", b)
     else
       match query_body E question sid mem (chat_history_store b) with
       | (s, mem', inr (answer, sources)) =>
           (JsonSuccess answer sources, set_chain (set_store b s) mem')
       | (s, mem', inl e) =>
           (JsonError ("查询处理错误: " +:+ e),
            set_chain (set_store b (rollback_query sid s)) mem')
       end) = (JsonSuccess answer sources, a') →
    question ≠ ""%string ∧
    chat_history_store a' =
      <[sid := last_n 20 (default [] (chat_history_store a !! sid) ++
                 [Message User question; Message Assistant answer])]>
        (chat_history_store a)) as Hproceed.
  { intros b mem Hb. case_decide as Hq; [done|].
    unfold query_body. rewrite append_user, Hb.
    destruct (chain_invoke E mem question) as [e|[ans docs]]; [done|].
    erewrite append_message_Some by apply lookup_insert_eq.
    erewrite limit_history_Some by apply lookup_insert_eq.
    intros [= <- <- <-]. simpl.
    by rewrite !insert_insert_eq, <- app_assoc. }
  destruct (qa_chain a) as [mem|].
  - by apply Hproceed.
  - rewrite initialize_rag_system_eq. destruct (init_failure E); [done|].
    simpl. intros H. by eapply Hproceed; [|exact H].
Qed.

End PipelineFacts.

Section PipelineClaims.
Import App.

(** C10. A [query] or [stream_query] call whose question is the empty
    string answers with an error (the empty-question error, or the
    exception of a failing first-time initialisation), starts no event
    stream, and leaves the session store exactly as it was: no session
    is created and no message is appended. *)
Theorem empty_question_rejected (E : env) (sid : string) (a : app) :
  let rejected (ready : bool) :=
    match ready, init_failure E with
    | false, Some e => Unhandled e
    | _, _ => JsonError "问题不能为空"
    end in
  (query E "" sid a).1 = rejected (bool_decide (is_Some (qa_chain a))) ∧
  (stream_query E "" sid a).1 = rejected (streaming_ready a) ∧
  is_error (query E "" sid a).1 = true ∧
  is_error (stream_query E "" sid a).1 = true ∧
  (stream_call E "" sid a).1.2 = None ∧
  chat_history_store (query E "" sid a).2 = chat_history_store a ∧
  chat_history_store (stream_query E "" sid a).2 = chat_history_store a ∧
  chat_history_store (stream_call E "" sid a).2 = chat_history_store a.
Proof.
  unfold stream_call, stream_query, query.
  rewrite !initialize_rag_system_eq.
  destruct (qa_chain a) as [mem|], (streaming_ready a), (init_failure E) as [e|];
    simpl; done.
Qed.

(** C4. A streaming query whose generation stream runs to exhaustion
    emits exactly: one sources event, then one token event per fragment in
    the order the generation service produced them, then one end event;
    and the concatenation of the token values is the assistant message
    stored last in the session. *)
Theorem streaming_protocol_order (E : env) (question sid : string)
    (a a1 : app) (g : generator) :
  stream_query E question sid a = (EventStream g, a1) →
  unbroken (llm_stream E (gen_inputs g)) = true →
  let frags := fragments (llm_stream E (gen_inputs g)) in
  ∃ a2,
    stream_call E question sid a =
      (EventStream g,
       Some (Sources (format_sources (g_docs g)) :: map Token frags ++ [End],
             Finished),
       a2) ∧
    last (get_history sid a2) = Some (Message Assistant (concat_fragments frags)).
Proof.
  intros Hq Hu frags.
  destruct (stream_query_stream E _ _ _ _ _ Hq) as (_ & Hsid & _ & _ & _ & Hs).
  unfold stream_call. rewrite Hq.
  assert (chat_history_store a1 !! g_session_id g =
          Some (get_history sid a ++ [Message User question])) as Hl.
  { by rewrite Hs, Hsid, lookup_insert_eq. }
  rewrite (generate_unbroken E g _ _ Hl Hu).
  eexists. split; [reflexivity|].
  unfold get_history. simpl. rewrite Hsid, lookup_insert_eq. simpl.
  rewrite last_n_last by lia. apply last_snoc.
Qed.

(** A generation failure in mid-stream: the generator stops without an
    end event and the question stays in the session. *)
Lemma broken_stream_keeps_question (E : env) (question sid : string)
    (a a1 : app) (g : generator) :
  stream_query E question sid a = (EventStream g, a1) →
  unbroken (llm_stream E (gen_inputs g)) = false →
  ∃ e a2,
    stream_call E question sid a =
      (EventStream g,
       Some (Sources (format_sources (g_docs g))
               :: map Token (fragments (llm_stream E (gen_inputs g))),
             Raised e),
       a2) ∧
    get_history sid a2 = get_history sid a ++ [Message User question].
Proof.
  intros Hq Hu.
  destruct (stream_query_stream E _ _ _ _ _ Hq) as (_ & Hsid & _ & _ & _ & Hs).
  unfold stream_call. rewrite Hq.
  destruct (generate_broken E g (chat_history_store a1) Hu) as [e ->].
  exists e. eexists. split; [reflexivity|].
  unfold get_history at 1. simpl. by rewrite Hs, lookup_insert_eq.
Qed.

(** C1, on the code. The generation service breaks after the fragment
    "Paris": the stream carries the sources event and one token and no end
    event, the generator raises, and the question appended by
    [stream_query] is still the last entry of the session. *)
Theorem stream_failure_keeps_question :
  let call := stream_call Fixtures.breaking_env
                "What is the capital of France?" "s1" Fixtures.started in
  call.1.2 =
    Some ([Sources [{| file := "notes.txt"; src_page := None |}]; Token "Paris"],
          Raised "connection lost") ∧
  get_history "s1" call.2 =
    [Message User "What is the capital of France?"].
Proof. vm_compute. done. Qed.

Lemma streaming_protocol_order_witness :
  ∃ a2,
    stream_call Fixtures.paris_env Fixtures.paris_question "s1" Fixtures.started =
      (EventStream Fixtures.paris_generator,
       Some ([Sources [{| file := "notes.txt"; src_page := None |}];
              Token "Paris"; Token " is"; Token " the capital."; End],
             Finished),
       a2) ∧
    last (get_history "s1" a2) = Some (Message Assistant "Paris is the capital.").
Proof.
  apply (streaming_protocol_order Fixtures.paris_env Fixtures.paris_question
           "s1" Fixtures.started
           (stream_query Fixtures.paris_env Fixtures.paris_question "s1"
              Fixtures.started).2
           Fixtures.paris_generator).
  - vm_compute. reflexivity.
  - vm_compute. reflexivity.
Defined.

(** A drained stream that reached its end event. *)
Lemma stream_call_finished (E : env) (question sid : string) (a a' : app)
    (g : generator) (evs : list event) :
  stream_call E question sid a = (EventStream g, Some (evs, Finished), a') →
  chat_history_store a' =
    <[sid := last_n 20 (get_history sid a ++
               [Message User question;
                Message Assistant
                  (concat_fragments (fragments (llm_stream E (gen_inputs g))))])]>
      (chat_history_store a).
Proof.
  unfold stream_call.
  destruct (stream_query E question sid a) as [r a1] eqn:Hq.
  destruct r as [m|ans srcs|g0|e]; try done.
  destruct (stream_query_stream E _ _ _ _ _ Hq) as (_ & Hsid & _ & _ & _ & Hs).
  assert (chat_history_store a1 !! g_session_id g0 =
          Some (get_history sid a ++ [Message User question])) as Hl.
  { by rewrite Hs, Hsid, lookup_insert_eq. }
  destruct (unbroken (llm_stream E (gen_inputs g0))) eqn:Hu.
  - rewrite (generate_unbroken E g0 _ _ Hl Hu).
    intros [= <- <- <-]. simpl.
    by rewrite Hs, Hsid, insert_insert_eq, <- app_assoc.
  - destruct (generate_broken E g0 (chat_history_store a1) Hu) as [e ->].
    done.
Qed.

(** A successful round-trip appends the question and the answer and keeps
    the most recent twenty entries of that session; other sessions are not
    touched. *)
Lemma round_trip_store (E : env) (c : call) (a a' : app) (answer : string) :
  round_trip E c a = Some (answer, a') →
  chat_history_store a' =
    <[call_session c :=
        last_n 20 (get_history (call_session c) a ++
          [Message User (call_question c); Message Assistant answer])]>
      (chat_history_store a).
Proof.
  destruct c as [q sid|q sid]; simpl.
  - destruct (query E q sid a) as [r a1] eqn:Hq.
    destruct r as [m|ans srcs|g0|e]; try done.
    intros [= <- <-]. by destruct (query_success E _ _ _ _ _ _ Hq).
  - destruct (stream_call E q sid a) as [[r o] a1] eqn:Hq.
    destruct r as [m|ans srcs|g0|e]; try done.
    destruct o as [[evs [|e]]|]; try done.
    intros [= <- <-]. by apply stream_call_finished in Hq.
Qed.

Lemma round_trip_bounded (E : env) (c : call) (a a' : app) (answer : string) :
  round_trip E c a = Some (answer, a') →
  (∀ sid, length (get_history sid a) ≤ 20) →
  ∀ sid, length (get_history sid a') ≤ 20.
Proof.
  intros Hc Ha sid. unfold get_history. rewrite (round_trip_store _ _ _ _ _ Hc).
  destruct (decide (sid = call_session c)) as [->|Hne].
  - rewrite lookup_insert_eq. apply last_n_length.
  - rewrite lookup_insert_ne by done. apply Ha.
Qed.

Lemma round_trips_bounded (E : env) (cs : list call) (a a' : app) :
  round_trips E cs a = Some a' →
  (∀ sid, length (get_history sid a) ≤ 20) →
  ∀ sid, length (get_history sid a') ≤ 20.
Proof.
  revert a. induction cs as [|c cs IH]; intros a; simpl.
  - by intros [= <-].
  - destruct (round_trip E c a) as [[ans a1]|] eqn:Hc; [|done].
    intros Hcs Ha. apply (IH a1 Hcs). by eapply round_trip_bounded.
Qed.

(** C5, as the code has it. The trim follows the assistant append that
    completes a round-trip: after any sequence of successful round-trips
    and one more, the session of the last one holds the most recent
    twenty of its entries extended with the new question and answer, and
    when every session started within the cap of twenty, every session
    is within the cap again. *)
Theorem history_capped_after_round_trip (E : env) (cs : list call) (c : call)
    (a a1 a' : app) (answer : string) :
  (∀ sid, length (get_history sid a) ≤ 20) →
  round_trips E cs a = Some a1 →
  round_trip E c a1 = Some (answer, a') →
  get_history (call_session c) a' =
    last_n 20 (get_history (call_session c) a1 ++
      [Message User (call_question c); Message Assistant answer]) ∧
  ∀ sid, length (get_history sid a') ≤ 20.
Proof.
  intros Ha Hcs Hc. split.
  - unfold get_history at 1. rewrite (round_trip_store _ _ _ _ _ Hc).
    by rewrite lookup_insert_eq.
  - eapply round_trip_bounded; [exact Hc|].
    by eapply round_trips_bounded.
Qed.

Lemma history_capped_after_round_trip_witness :
  get_history "s1" Fixtures.after_two =
    last_n 20 (get_history "s1" Fixtures.after_one ++
      [Message User "q12"; Message Assistant "Paris is the capital."]) ∧
  ∀ sid, length (get_history sid Fixtures.after_two) ≤ 20.
Proof.
  apply (history_capped_after_round_trip Fixtures.paris_env
           [Buffered "q11" "s1"] (Streamed "q12" "s1")
           Fixtures.at_cap Fixtures.after_one Fixtures.after_two
           "Paris is the capital.").
  - intros sid. unfold get_history. simpl.
    destruct (decide (sid = "s1"%string)) as [->|Hne].
    + vm_compute. lia.
    + rewrite lookup_singleton_ne by done. simpl. lia.
  - vm_compute. reflexivity.
  - vm_compute. reflexivity.
Defined.

(** C5, as stated, fails: the user append that opens a call is not
    followed by a trim.  A session holding twenty entries holds twenty-one
    once [stream_query] has returned, the oldest entry still first. *)
Lemma cap_exceeded_after_question :
  let a1 := (stream_query Fixtures.paris_env "q11" "s1" Fixtures.at_cap).2 in
  length (get_history "s1" Fixtures.at_cap) = 20 ∧
  get_history "s1" a1 = Fixtures.ten_pairs ++ [Message User "q11"] ∧
  length (get_history "s1" a1) = 21 ∧
  get_history "s1" a1 ≠ last_n 20 (Fixtures.ten_pairs ++ [Message User "q11"]).
Proof. vm_compute. repeat split; done. Qed.

(** The buffered endpoint never reads the session history: its response
    is fixed by the chain (its memory) and the question. *)
Lemma query_response_from_memory (E : env) (question sid sid' : string)
    (a b : app) :
  qa_chain a = qa_chain b →
  (query E question sid a).1 = (query E question sid' b).1.
Proof.
  intros Hm. unfold query. rewrite <- Hm, !initialize_rag_system_eq.
  assert (∀ (x y : app) (sx sy : gmap string (list message)) (mem : chain_memory),
    (if decide (question = ""%string) then (JsonError "问题不能为空", x)
     else
       match query_body E question sid mem sx with
       | (s, mem', inr (answer, sources)) =>
           (JsonSuccess answer sources, set_chain (set_store x s) mem')
       | (s, mem', inl e) =>
           (JsonError ("查询处理错误: " +:+ e),
            set_chain (set_store x (rollback_query sid s)) mem')
       end).1 =
    (if decide (question = ""%string) then (JsonError "问题不能为空", y)
     else
       match query_body E question sid' mem sy with
       | (s, mem', inr (answer, sources)) =>
           (JsonSuccess answer sources, set_chain (set_store y s) mem')
       | (s, mem', inl e) =>
           (JsonError ("查询处理错误: " +:+ e),
            set_chain (set_store y (rollback_query sid' s)) mem')
       end).1) as Hproceed.
  { intros x y sx sy mem. case_decide; [done|].
    unfold query_body. rewrite !append_user.
    destruct (chain_invoke E mem question) as [e|[ans docs]]; [done|].
    erewrite !append_message_Some by apply lookup_insert_eq.
    by erewrite !limit_history_Some by apply lookup_insert_eq. }
  destruct (qa_chain a) as [mem|]; [apply Hproceed|].
  destruct (init_failure E); [done|].
  exact (Hproceed
           {| qa_chain := Some []; streaming_ready := true;
              chat_history_store := chat_history_store a |}
           {| qa_chain := Some []; streaming_ready := true;
              chat_history_store := chat_history_store b |}
           (chat_history_store a) (chat_history_store b) []).
Qed.

(** C2, on the code. Session A asks a question through the buffered
    endpoint; session B, whose own history is empty, then asks one.  The
    chain answers B from its single memory, which holds A's exchange: B's
    answer is A's question, whereas the same call without A's exchange is
    answered with the empty string. *)
Theorem buffered_answer_crosses_sessions :
  let a1 := (query Fixtures.echo_env "the secret of A" "A" Fixtures.started).2 in
  get_history "B" a1 = [] ∧
  qa_chain a1 = Some [("the secret of A", "")%string] ∧
  (query Fixtures.echo_env "hello" "B" a1).1 = JsonSuccess "the secret of A" [] ∧
  (query Fixtures.echo_env "hello" "B" Fixtures.started).1 = JsonSuccess "" [].
Proof. vm_compute. done. Qed.

End PipelineClaims.

(** ** The tracker *)
Section TrackerFacts.
Import FileTracking.
Variable E : env.
Variable kd : string.
Variable dir : gmap string file.

Lemma path_join_inj (rel rel' : string) :
  path_join kd rel = path_join kd rel' → rel = rel'.
Proof.
  unfold path_join. intros H. apply (inj (String.app kd)) in H. by simplify_eq.
Qed.

Lemma get_file_metadata_inr (rel : string) (now c : nat) (meta : tracked_file) :
  get_file_metadata E dir rel now = inr (meta, c) →
  calculate_file_hash E dir rel = inr (hash meta) ∧ c = S now ∧
  ∃ f, dir !! rel = Some f ∧ size meta = st_size f ∧
       modified_time meta = st_mtime f.
Proof.
  unfold get_file_metadata. destruct (dir !! rel) as [f|]; [|done].
  destruct (calculate_file_hash E dir rel) as [e|h]; [done|].
  intros [= <- <-]. simpl. split_and!; [done..|]. by exists f.
Qed.

Lemma get_file_metadata_inl (rel : string) (now : nat) (e : exn) :
  calculate_file_hash E dir rel = inl e →
  ∃ e', get_file_metadata E dir rel now = inl e'.
Proof.
  unfold get_file_metadata. intros H. destruct (dir !! rel); rewrite ?H; eauto.
Qed.

(** A file just checked is up to date in the tracked entries. *)
Lemma check_file_up_to_date (st st' : scan_state) (rel : string) :
  check_file E kd dir st rel = inr st' →
  up_to_date E dir (tracked_files st') rel.
Proof.
  unfold check_file.
  destruct (tracked_files st !! rel) as [entry|] eqn:Ht.
  - destruct (calculate_file_hash E dir rel) as [e|h] eqn:Hh; [done|].
    case_decide as Hd.
    + destruct (get_file_metadata E dir rel (scan_clock st)) as [e|[m c]] eqn:Hm;
        [done|].
      intros [= <-]. simpl. exists m. rewrite lookup_insert_eq. split; [done|].
      apply get_file_metadata_inr in Hm as [Hm _]. congruence.
    + intros [= <-]. exists entry. split; [done|].
      destruct (decide (h = hash entry)) as [->|]; [done|contradiction].
  - destruct (get_file_metadata E dir rel (scan_clock st)) as [e|[m c]] eqn:Hm;
      [done|].
    intros [= <-]. simpl. exists m. rewrite lookup_insert_eq. split; [done|].
    by apply get_file_metadata_inr in Hm as [Hm _].
Qed.

(** Checking one file does not disturb the entry of another. *)
Lemma check_file_other (st st' : scan_state) (rel p : string) :
  check_file E kd dir st rel = inr st' → p ≠ rel →
  tracked_files st' !! p = tracked_files st !! p.
Proof.
  unfold check_file. intros H Hne.
  destruct (tracked_files st !! rel) as [entry|].
  - destruct (calculate_file_hash E dir rel) as [e|h]; [done|].
    case_decide; [|by simplify_eq].
    destruct (get_file_metadata E dir rel (scan_clock st)) as [e|[m c]]; [done|].
    simplify_eq. simpl. by rewrite lookup_insert_ne.
  - destruct (get_file_metadata E dir rel (scan_clock st)) as [e|[m c]]; [done|].
    simplify_eq. simpl. by rewrite lookup_insert_ne.
Qed.

Lemma check_file_keeps_up_to_date (st st' : scan_state) (rel p : string) :
  check_file E kd dir st rel = inr st' →
  up_to_date E dir (tracked_files st) p →
  up_to_date E dir (tracked_files st') p.
Proof.
  intros H Hp. destruct (decide (p = rel)) as [->|Hne].
  - by eapply check_file_up_to_date.
  - unfold up_to_date. by rewrite (check_file_other _ _ _ _ H Hne).
Qed.

Lemma check_files_up_to_date (rels : list string) (st st' : scan_state) (p : string) :
  check_files E kd dir rels st = inr st' →
  p ∈ rels ∨ up_to_date E dir (tracked_files st) p →
  up_to_date E dir (tracked_files st') p.
Proof.
  revert st. induction rels as [|rel rest IH]; intros st; simpl.
  - intros [= <-] [Hin|Hp]; [|done]. by apply elem_of_nil in Hin.
  - destruct (check_file E kd dir st rel) as [e|st1] eqn:H1; [done|].
    intros Hrest Hp. apply (IH st1 Hrest).
    destruct Hp as [Hin|Hp].
    + apply elem_of_cons in Hin as [->|Hin]; [right|by left].
      by eapply check_file_up_to_date.
    + right. by eapply check_file_keeps_up_to_date.
Qed.

(** A file that is up to date is passed over. *)
Lemma check_file_noop (st : scan_state) (rel : string) :
  up_to_date E dir (tracked_files st) rel →
  check_file E kd dir st rel = inr st.
Proof.
  intros (entry & Ht & Hh). unfold check_file. rewrite Ht, Hh.
  case_decide; [contradiction|done].
Qed.

Lemma check_files_noop (rels : list string) (st : scan_state) :
  (∀ p, p ∈ rels → up_to_date E dir (tracked_files st) p) →
  check_files E kd dir rels st = inr st.
Proof.
  induction rels as [|rel rest IH]; intros Hall; simpl; [done|].
  rewrite check_file_noop by (apply Hall; left).
  apply IH. intros p Hp. apply Hall. by right.
Qed.

(** An unreadable listed file makes the loop raise. *)
Lemma check_file_unreadable (st : scan_state) (rel : string) (e : exn) :
  calculate_file_hash E dir rel = inl e →
  ∃ e', check_file E kd dir st rel = inl e'.
Proof.
  intros Hh. unfold check_file. rewrite Hh.
  destruct (get_file_metadata_inl rel (scan_clock st) e Hh) as [e' ->].
  destruct (tracked_files st !! rel); eauto.
Qed.

Lemma check_files_unreadable (rels : list string) (st : scan_state)
    (rel : string) (e : exn) :
  rel ∈ rels → calculate_file_hash E dir rel = inl e →
  ∃ e', check_files E kd dir rels st = inl e'.
Proof.
  revert st. induction rels as [|p rest IH]; intros st Hin Hh; simpl.
  - by apply elem_of_nil in Hin.
  - destruct (check_file E kd dir st p) as [e1|st1] eqn:H1; [eauto|].
    apply elem_of_cons in Hin as [->|Hin]; [|by apply IH].
    destruct (check_file_unreadable st p e Hh) as [e' He']. congruence.
Qed.

Lemma drop_deleted_lookup (current : list string)
    (tracked : gmap string tracked_file) (rel : string) :
  rel ∈ current → drop_deleted current tracked !! rel = tracked !! rel.
Proof.
  intros Hin. unfold drop_deleted.
  destruct (tracked !! rel) as [entry|] eqn:Ht.
  - by apply map_lookup_filter_Some.
  - apply map_lookup_filter_None. left. done.
Qed.

Lemma drop_deleted_idemp (current : list string)
    (tracked : gmap string tracked_file) :
  drop_deleted current (drop_deleted current tracked) = drop_deleted current tracked.
Proof.
  unfold drop_deleted. apply map_eq. intros rel. apply option_eq. intros entry.
  rewrite !map_lookup_filter_Some. intuition.
Qed.

End TrackerFacts.

Section ChangeDetection.
Import FileTracking.
Variable E : env.
Variable kd : string.
Variable dir : gmap string file.
Variable rel : string.
Variable entry : tracked_file.
Variable h : string.
Hypothesis digest : calculate_file_hash E dir rel = inr h.

(** Checking another file reports at most that other file. *)
Lemma check_file_reports (st st' : scan_state) (p : string) :
  check_file E kd dir st p = inr st' → p ≠ rel →
  (path_join kd rel ∈ new_or_changed_files st' ↔
   path_join kd rel ∈ new_or_changed_files st).
Proof using Type.
  unfold check_file. intros H Hne.
  assert (path_join kd rel ∈ new_or_changed_files st ++ [path_join kd p] ↔
          path_join kd rel ∈ new_or_changed_files st) as Happ.
  { rewrite elem_of_app, list_elem_of_singleton. split; [|by left].
    intros [?|Heq]; [done|]. apply path_join_inj in Heq. congruence. }
  destruct (tracked_files st !! p) as [old|].
  - destruct (calculate_file_hash E dir p) as [e|hp]; [done|].
    case_decide; [|by simplify_eq].
    destruct (get_file_metadata E dir p (scan_clock st)) as [e|[m c]]; [done|].
    by simplify_eq.
  - destruct (get_file_metadata E dir p (scan_clock st)) as [e|[m c]]; [done|].
    by simplify_eq.
Qed.

Lemma check_file_settles (st st' : scan_state) :
  pending kd rel entry st →
  check_file E kd dir st rel = inr st' →
  settled kd rel entry h st'.
Proof using digest.
  intros [Ht Hc]. unfold check_file. rewrite Ht, digest.
  case_decide as Hd.
  - destruct (get_file_metadata E dir rel (scan_clock st)) as [e|[m c]] eqn:Hm;
      [done|].
    intros [= <-]. right. simpl. split; [done|]. split.
    + apply elem_of_app. right. by apply list_elem_of_singleton.
    + exists m. rewrite lookup_insert_eq. split; [done|].
      apply get_file_metadata_inr in Hm as [Hm _]. congruence.
  - intros [= <-]. left. split; [|done].
    destruct (decide (h = hash entry)); [done|contradiction].
Qed.

Lemma check_file_settled (st st' : scan_state) (p : string) :
  settled kd rel entry h st →
  check_file E kd dir st p = inr st' →
  settled kd rel entry h st'.
Proof using digest.
  intros Hs H. destruct (decide (p = rel)) as [->|Hne].
  - assert (up_to_date E dir (tracked_files st) rel) as Hup.
    { destruct Hs as [[-> [Ht _]]|(_ & _ & m & Ht & Hm)].
      - by exists entry.
      - exists m. by rewrite Hm. }
    rewrite (check_file_noop E kd dir st rel Hup) in H. by simplify_eq.
  - unfold settled, pending.
    rewrite (check_file_other E kd dir _ _ _ _ H (not_eq_sym Hne)).
    by rewrite (check_file_reports _ _ _ H Hne).
Qed.

Lemma check_file_pending (st st' : scan_state) (p : string) :
  pending kd rel entry st → p ≠ rel →
  check_file E kd dir st p = inr st' →
  pending kd rel entry st'.
Proof using Type.
  intros Hp Hne H. unfold pending.
  rewrite (check_file_other E kd dir _ _ _ _ H (not_eq_sym Hne)).
  by rewrite (check_file_reports _ _ _ H Hne).
Qed.

Lemma check_files_settled (rels : list string) (st st' : scan_state) :
  settled kd rel entry h st →
  check_files E kd dir rels st = inr st' →
  settled kd rel entry h st'.
Proof using digest.
  revert st. induction rels as [|p rest IH]; intros st Hs; simpl.
  - by intros [= <-].
  - destruct (check_file E kd dir st p) as [e|st1] eqn:H1; [done|].
    apply IH. by eapply check_file_settled.
Qed.

Lemma check_files_settles (rels : list string) (st st' : scan_state) :
  rel ∈ rels →
  pending kd rel entry st →
  check_files E kd dir rels st = inr st' →
  settled kd rel entry h st'.
Proof using digest.
  revert st. induction rels as [|p rest IH]; intros st Hin Hp; simpl.
  - by apply elem_of_nil in Hin.
  - destruct (check_file E kd dir st p) as [e|st1] eqn:H1; [done|].
    destruct (decide (p = rel)) as [->|Hne].
    + apply check_files_settled. by eapply check_file_settles.
    + apply elem_of_cons in Hin as [?|Hin]; [congruence|].
      apply IH; [done|]. by eapply check_file_pending.
Qed.

End ChangeDetection.

Section TrackerClaims.
Import FileTracking.

(** The scan, with the loading of the manifest folded in. *)
Lemma check_files_changed_eq (E : env) (kd : string) (w : world) :
  check_files_changed E kd w =
  let now := (load_file_tracking (tracking w) (clock w)).2 in
  let current := current_rel_paths (directory w) in
  match check_files E kd (directory w) current
          {| tracked_files := manifest w; new_or_changed_files := [];
             scan_clock := now |} with
  | inl e => (inl e, set_clock w now)
  | inr st =>
      (inr (new_or_changed_files st),
       set_tracking w
         (Saved {| files := drop_deleted current (tracked_files st);
                   last_update := scan_clock st |})
         (S (scan_clock st)))
  end.
Proof. unfold check_files_changed, manifest. by destruct (tracking w). Qed.

(** After a completed scan every listed file is up to date in the saved
    manifest, and every saved entry belongs to a listed file. *)
Lemma scanned_manifest (E : env) (kd : string) (w w1 : world)
    (changed : list string) :
  check_files_changed E kd w = (inr changed, w1) →
  directory w1 = directory w ∧
  (∃ d, tracking w1 = Saved d ∧ files d = manifest w1) ∧
  (∀ rel, rel ∈ current_rel_paths (directory w) →
          up_to_date E (directory w) (manifest w1) rel) ∧
  drop_deleted (current_rel_paths (directory w)) (manifest w1) = manifest w1.
Proof.
  rewrite check_files_changed_eq. cbv zeta.
  destruct (check_files _ _ _ _ _) as [e|st] eqn:Hloop; [done|].
  intros [= <- <-]. unfold manifest. simpl. split_and!; [done|eauto|..].
  - intros rel Hin. unfold up_to_date. rewrite drop_deleted_lookup by done.
    eapply check_files_up_to_date; [exact Hloop|by left].
  - apply drop_deleted_idemp.
Qed.

(** The scan that follows a completed scan of an unchanged directory. *)
Lemma second_scan (E : env) (kd : string) (w w1 : world)
    (changed : list string) (c : nat) :
  check_files_changed E kd w = (inr changed, w1) →
  check_files_changed E kd (set_clock w1 c) =
    (inr [],
     set_tracking w1 (Saved {| files := manifest w1; last_update := c |}) (S c)).
Proof.
  intros H1.
  destruct (scanned_manifest E kd w w1 changed H1)
    as (Hdir & (d & Hd & Hfiles) & Hup & Hdrop).
  rewrite check_files_changed_eq. cbv zeta.
  replace (manifest (set_clock w1 c)) with (manifest w1) by done.
  replace (directory (set_clock w1 c)) with (directory w) by done.
  replace (tracking (set_clock w1 c)) with (tracking w1) by done.
  rewrite check_files_noop by (simpl; by rewrite <- Hdir in Hup |- *).
  simpl. by rewrite Hdrop, Hd.
Qed.

(** C6. When a scan has completed and the directory is left as it is, the
    next scan (at whatever time [c] it starts) completes too, returns the
    empty list, and rewrites the manifest file with the same entries under a
    new last-update stamp. *)
Theorem rescan_idempotent (E : env) (kd : string) (w w1 : world)
    (changed : list string) (c : nat) :
  check_files_changed E kd w = (inr changed, w1) →
  ∃ w2,
    check_files_changed E kd (set_clock w1 c) = (inr [], w2) ∧
    manifest w2 = manifest w1 ∧
    tracking w2 = Saved {| files := manifest w1; last_update := c |} ∧
    directory w2 = directory w1.
Proof.
  intros H1. rewrite (second_scan E kd w w1 changed c H1).
  eexists. split; [reflexivity|]. done.
Qed.

(** C7. For a file that is in the manifest and still listed, a completed
    scan reports its path exactly when the digest of its present bytes
    differs from the stored one (sizes and modification times play no
    part); when reported, its manifest entry carries the new digest, and
    otherwise the entry is left as it was. *)
Theorem change_reported_iff_hash_differs (E : env) (kd : string) (w w1 : world)
    (changed : list string) (rel : string) (entry : tracked_file) (h : string) :
  check_files_changed E kd w = (inr changed, w1) →
  manifest w !! rel = Some entry →
  rel ∈ current_rel_paths (directory w) →
  calculate_file_hash E (directory w) rel = inr h →
  (path_join kd rel ∈ changed ↔ h ≠ hash entry) ∧
  (h ≠ hash entry →
     ∃ updated, manifest w1 !! rel = Some updated ∧ hash updated = h) ∧
  (h = hash entry → manifest w1 !! rel = Some entry).
Proof.
  rewrite check_files_changed_eq. cbv zeta.
  destruct (check_files _ _ _ _ _) as [e|st] eqn:Hloop; [done|].
  intros [= <- <-] Hentry Hin Hh.
  assert (settled kd rel entry h st) as Hs.
  { eapply check_files_settles; [exact Hh|exact Hin| |exact Hloop].
    split; [done|]. simpl. apply not_elem_of_nil. }
  unfold manifest. simpl. rewrite drop_deleted_lookup by done.
  destruct Hs as [[-> [Ht Hc]]|(Hne & Hc & m & Ht & Hm)].
  - split_and!; [|done..]. split; [by intros ?|by intros ?].
  - split_and!; [done|by exists m|done].
Qed.

End TrackerClaims.

Section TrackerWitnesses.
Import FileTracking Fixtures.

Lemma rescan_idempotent_witness :
  ∃ w2,
    check_files_changed plain_digest kb (set_clock two_files_scanned 10) =
      (inr [], w2) ∧
    manifest w2 = manifest two_files_scanned ∧
    tracking w2 =
      Saved {| files := manifest two_files_scanned; last_update := 10 |} ∧
    directory w2 = directory two_files_scanned.
Proof.
  apply (rescan_idempotent plain_digest kb two_files two_files_scanned
           ["./knowledge_base/a.txt"; "./knowledge_base/b.txt"]%string 10).
  vm_compute. reflexivity.
Defined.

Lemma change_reported_iff_hash_differs_witness :
  (directory b_rewritten !! "b.txt"%string =
     Some (File 4 100 (inr "BETA"%string)) ∧
   manifest b_rewritten !! "b.txt"%string = Some (TrackedFile 4 100 "beta" 2)) ∧
  path_join kb "b.txt" ∈ (["./knowledge_base/b.txt"]%string : list string) ∧
  ∃ updated,
    manifest (check_files_changed plain_digest kb b_rewritten).2 !! "b.txt"%string
      = Some updated ∧
    hash updated = "BETA"%string.
Proof.
  split; [split; vm_compute; reflexivity|].
  destruct (change_reported_iff_hash_differs plain_digest kb b_rewritten
              (check_files_changed plain_digest kb b_rewritten).2
              ["./knowledge_base/b.txt"]%string "b.txt"
              (TrackedFile 4 100 "beta" 2) "BETA")
    as (Hiff & Hupdated & _).
  - vm_compute. reflexivity.
  - vm_compute. reflexivity.
  - vm_compute. by repeat constructor.
  - vm_compute. reflexivity.
  - split; [apply Hiff|apply Hupdated]; simpl; congruence.
Defined.

End TrackerWitnesses.

(** ** Extraction *)
Section LoaderFacts.
Import FileLoaders.
Variable E : env.

Lemma load_into_app (file_paths : list string) (documents : list document) :
  load_into E file_paths documents = documents ++ load_into E file_paths [].
Proof.
  revert documents. induction file_paths as [|path rest IH]; intros documents;
    simpl.
  - by rewrite app_nil_r.
  - destruct (load_file E path) as [e|file_docs]; [apply IH|].
    rewrite (IH (documents ++ file_docs)), (IH file_docs).
    by rewrite app_assoc.
Qed.

Lemma load_specific_documents_cons (path : string) (rest : list string) :
  load_specific_documents E (path :: rest) =
  match load_file E path with
  | inl _ => []
  | inr file_docs => file_docs
  end ++ load_specific_documents E rest.
Proof.
  unfold load_specific_documents. simpl.
  destruct (load_file E path) as [e|file_docs]; [done|].
  by rewrite load_into_app.
Qed.

Lemma load_specific_documents_app (before after : list string) :
  load_specific_documents E (before ++ after) =
  load_specific_documents E before ++ load_specific_documents E after.
Proof.
  induction before as [|path rest IH]; [done|].
  rewrite <- app_comm_cons, !load_specific_documents_cons, IH.
  by rewrite app_assoc.
Qed.

(** A file whose extraction raises contributes nothing, and the files
    before and after it are loaded as if it were not in the batch. *)
Lemma load_specific_documents_skips (before after : list string)
    (path : string) (e : exn) :
  load_file E path = inl e →
  load_specific_documents E (before ++ path :: after) =
  load_specific_documents E before ++ load_specific_documents E after.
Proof.
  intros Hfail.
  by rewrite load_specific_documents_app, load_specific_documents_cons, Hfail.
Qed.

End LoaderFacts.

(** ** Ingestion failures *)
Section IngestionClaims.
Import FileTracking FileLoaders Ingestion.

(** C3, as the code has it. A hash failure is not isolated: it aborts the
    scan, which returns no list and leaves the manifest file as it was.
    An extraction failure is isolated: the files before and after the
    failing one are loaded and the failing one contributes no document;
    but the scan that precedes extraction has already saved an up-to-date
    manifest entry for every listed file, the failing one included, so the
    next scan of the unchanged directory reports nothing. *)
Theorem ingestion_failure_effects (ET : FileTracking.env)
    (EL : FileLoaders.env) (kd : string) (w : world) :
  (∀ rel e,
     rel ∈ current_rel_paths (directory w) →
     calculate_file_hash ET (directory w) rel = inl e →
     ∃ e' c, scan_and_load ET EL kd w = (inl e', set_clock w c)) ∧
  (∀ changed w1,
     check_files_changed ET kd w = (inr changed, w1) →
     scan_and_load ET EL kd w = (inr (load_specific_documents EL changed), w1) ∧
     (∀ before path after e,
        changed = before ++ path :: after →
        load_file EL path = inl e →
        load_specific_documents EL changed =
          load_specific_documents EL before ++
          load_specific_documents EL after) ∧
     (∀ rel, rel ∈ current_rel_paths (directory w) →
             up_to_date ET (directory w) (manifest w1) rel) ∧
     (∀ c, (check_files_changed ET kd (set_clock w1 c)).1 = inr [])).
Proof.
  split.
  - intros rel e Hin Hh. unfold scan_and_load.
    rewrite check_files_changed_eq. cbv zeta.
    destruct (check_files_unreadable ET kd (directory w) _
                {| tracked_files := manifest w; new_or_changed_files := [];
                   scan_clock := (load_file_tracking (tracking w) (clock w)).2 |}
                rel e Hin Hh) as [e' ->].
    eauto.
  - intros changed w1 Hscan. split_and!.
    + unfold scan_and_load. by rewrite Hscan.
    + intros before path after e -> Hfail.
      by eapply load_specific_documents_skips.
    + by destruct (scanned_manifest ET kd w w1 changed Hscan) as (_ & _ & Hup & _).
    + intros c. by rewrite (second_scan ET kd w w1 changed c Hscan).
Qed.

Lemma ingestion_failure_effects_witness :
  (∃ e' c,
     scan_and_load Fixtures.plain_digest Fixtures.b_fails Fixtures.kb
       Fixtures.b_unreadable = (inl e', set_clock Fixtures.b_unreadable c)) ∧
  load_specific_documents Fixtures.b_fails
    ["./knowledge_base/a.txt"; "./knowledge_base/b.txt"]%string =
    load_specific_documents Fixtures.b_fails ["./knowledge_base/a.txt"%string] ++
    load_specific_documents Fixtures.b_fails [] ∧
  up_to_date Fixtures.plain_digest (directory Fixtures.two_files)
    (manifest Fixtures.two_files_scanned) "b.txt" ∧
  (check_files_changed Fixtures.plain_digest Fixtures.kb
     (set_clock Fixtures.two_files_scanned 10)).1 = inr [].
Proof.
  split.
  - destruct (ingestion_failure_effects Fixtures.plain_digest Fixtures.b_fails
                Fixtures.kb Fixtures.b_unreadable) as [Habort _].
    apply (Habort "b.txt"%string "PermissionError"%string).
    + vm_compute. by repeat constructor.
    + vm_compute. reflexivity.
  - destruct (ingestion_failure_effects Fixtures.plain_digest Fixtures.b_fails
                Fixtures.kb Fixtures.two_files) as [_ Hload].
    destruct (Hload ["./knowledge_base/a.txt"; "./knowledge_base/b.txt"]%string
                Fixtures.two_files_scanned) as (_ & Hskip & Hup & Hnext).
    + vm_compute. reflexivity.
    + split_and!.
      * apply (Hskip ["./knowledge_base/a.txt"%string]
                 "./knowledge_base/b.txt"%string [] "UnicodeDecodeError"%string);
          vm_compute; reflexivity.
      * apply Hup. vm_compute. by repeat constructor.
      * apply Hnext.
Defined.

(** C3, as stated, fails.  Extraction of [b.txt] raises during the first
    pass, which still loads [a.txt]; yet the manifest saved by that pass
    holds an entry for [b.txt], and the next scan reports no file: the
    failing file is not reported as changed again.  And when [b.txt] cannot
    be read for hashing, the pass raises instead of processing [a.txt]. *)
Lemma failed_extraction_not_rescanned :
  let pass := scan_and_load Fixtures.plain_digest Fixtures.b_fails Fixtures.kb
                Fixtures.two_files in
  load_file Fixtures.b_fails "./knowledge_base/b.txt" = inl "UnicodeDecodeError"%string ∧
  pass.1 = inr [Document "text" (Some "a.txt"%string)
                  (Some "./knowledge_base/a.txt"%string) None] ∧
  manifest pass.2 !! "b.txt"%string = Some (TrackedFile 4 100 "beta" 2) ∧
  (check_files_changed Fixtures.plain_digest Fixtures.kb pass.2).1 = inr [] ∧
  (scan_and_load Fixtures.plain_digest Fixtures.b_fails Fixtures.kb
     Fixtures.b_unreadable).1 = inl "PermissionError"%string.
Proof. vm_compute. done. Qed.

End IngestionClaims.

(** ** The knowledge index *)
Section IndexClaims.
Import VectorStore.

Lemma no_index_opens_fresh (disk : option store_dir) :
  index_exists disk = false →
  open_collection disk = {| other_entries := []; collection := Some [] |}.
Proof.
  destruct disk as [d|]; [|done]. simpl. intros Hnone.
  apply bool_decide_eq_false in Hnone. apply dec_stable in Hnone.
  unfold listdir in Hnone. apply app_eq_nil in Hnone as [Hother Hcoll].
  unfold open_collection. rewrite Hother.
  by destruct (collection d).
Qed.

(** C8. With no persisted index (the directory is missing or empty), a call
    without chunks ([None] or the empty list) raises and creates nothing;
    a call with chunks, once the embedding service has answered, returns a
    new index holding exactly one vector per chunk and persists it. *)
Theorem bootstrap_needs_chunks (E : env) (docs : option (list document))
    (disk : option store_dir) :
  disk = None ∨ (∃ d, disk = Some d ∧ listdir d = []) →
  (truthy docs = false →
     initialize_or_load_vector_store E docs disk =
       (inl "首次创建向量存储时必须提供文档"%string, disk)) ∧
  (∀ chunks vs,
     docs = Some chunks → chunks ≠ [] →
     embed_documents E (map page_content chunks) = inr vs →
     let created := {| other_entries := [];
                       collection := Some (zip_with IndexedVector vs chunks) |} in
     initialize_or_load_vector_store E docs disk = (inr created, Some created)).
Proof.
  intros Hdisk.
  assert (index_exists disk = false) as Hnone.
  { destruct Hdisk as [->|(d & -> & Hd)]; [done|].
    simpl. apply bool_decide_eq_false. by intros ?. }
  unfold initialize_or_load_vector_store. rewrite Hnone. split.
  - by intros ->.
  - intros chunks vs -> Hne Hvs.
    destruct chunks as [|chunk rest]; [done|]. simpl truthy. cbv iota. simpl negb.
    cbv iota. rewrite (no_index_opens_fresh _ Hnone).
    unfold add_documents. simpl default. by rewrite Hvs.
Qed.

Lemma bootstrap_needs_chunks_witness :
  initialize_or_load_vector_store Fixtures.length_embedding (Some [])
    (Some Fixtures.empty_dir) =
    (inl "首次创建向量存储时必须提供文档"%string, Some Fixtures.empty_dir) ∧
  initialize_or_load_vector_store Fixtures.length_embedding
    (Some [Fixtures.paris_doc]) None =
    (inr {| other_entries := [];
            collection := Some [IndexedVector [31] Fixtures.paris_doc] |},
     Some {| other_entries := [];
             collection := Some [IndexedVector [31] Fixtures.paris_doc] |}).
Proof.
  split.
  - destruct (bootstrap_needs_chunks Fixtures.length_embedding (Some [])
                (Some Fixtures.empty_dir)) as [Hraise _].
    + right. exists Fixtures.empty_dir. split; reflexivity.
    + apply Hraise. reflexivity.
  - destruct (bootstrap_needs_chunks Fixtures.length_embedding
                (Some [Fixtures.paris_doc]) None) as [_ Hcreate].
    + left. reflexivity.
    + apply (Hcreate [Fixtures.paris_doc] [[31]]).
      * reflexivity.
      * discriminate.
      * reflexivity.
Defined.

(** C9. With a persisted index present, a call with new chunks never
    raises away or drops a stored vector: whatever the embedding service
    does, every vector stored before is in the persisted collection
    afterwards; and when the call returns, the collection returned is the
    persisted one and is the old vectors, in place, followed by the new
    ones. *)
Theorem upsert_keeps_vectors (E : env) (chunks : list document) (d : store_dir) :
  listdir d ≠ [] →
  ∃ d',
    (initialize_or_load_vector_store E (Some chunks) (Some d)).2 = Some d' ∧
    (∀ v, v ∈ vectors d → v ∈ vectors d') ∧
    match (initialize_or_load_vector_store E (Some chunks) (Some d)).1 with
    | inr vector_store =>
        vector_store = d' ∧
        ∃ added, vectors vector_store = vectors d ++ added ∧
                 (chunks = [] → added = []) ∧
                 (∀ vs, chunks ≠ [] →
                        embed_documents E (map page_content chunks) = inr vs →
                        added = zip_with IndexedVector vs chunks)
    | inl _ => vectors d' = vectors d
    end.
Proof.
  intros Hd. unfold initialize_or_load_vector_store.
  assert (index_exists (Some d) = true) as ->.
  { simpl. by apply bool_decide_eq_true. }
  assert (vectors (open_collection (Some d)) = vectors d) as Hopen by done.
  destruct chunks as [|chunk rest]; simpl truthy; cbv iota.
  - eexists. split; [reflexivity|]. simpl fst. rewrite Hopen.
    split; [done|]. split; [done|]. exists []. rewrite app_nil_r. by split_and!.
  - unfold add_documents. simpl default.
    destruct (embed_documents E (map page_content (chunk :: rest))) as [e|vs].
    + eexists. split; [reflexivity|]. simpl fst. rewrite Hopen. done.
    + eexists. split; [reflexivity|]. simpl fst. unfold vectors at 2 4. simpl.
      split; [|split; [done|]].
      * intros v Hv. apply elem_of_app. by left.
      * eexists. split; [reflexivity|]. split; [done|].
        by intros vs' _ [= <-].
Qed.

Lemma upsert_keeps_vectors_witness :
  ∃ d',
    (initialize_or_load_vector_store Fixtures.length_embedding
       (Some [Fixtures.paris_doc]) (Some Fixtures.one_vector)).2 = Some d' ∧
    IndexedVector [7] Fixtures.paris_doc ∈ vectors d' ∧
    vectors d' = [IndexedVector [7] Fixtures.paris_doc;
                  IndexedVector [31] Fixtures.paris_doc].
Proof.
  destruct (upsert_keeps_vectors Fixtures.length_embedding [Fixtures.paris_doc]
              Fixtures.one_vector) as (d' & Hdisk & Hkept & _).
  - discriminate.
  - exists d'. split; [exact Hdisk|]. split.
    + apply Hkept. vm_compute. constructor.
    + vm_compute in Hdisk. by injection Hdisk as <-.
Defined.

End IndexClaims.

(** ** Further properties of the session store and the pipelines *)
Section SessionFacts.
Import App Sessions.

Lemma paired_app (h1 h2 : list message) :
  paired h1 = true → paired (h1 ++ h2) = paired h2.
Proof.
  revert h1. fix IH 1. intros [|m1 [|m2 rest]]; simpl; [done|done|].
  intros H. apply andb_true_iff in H as [H12 Hrest]. rewrite H12. simpl.
  by apply IH.
Qed.

Lemma paired_even (h : list message) :
  paired h = true → ∃ k, length h = 2 * k.
Proof.
  revert h. fix IH 1. intros [|m1 [|m2 rest]]; simpl; [by exists 0|done|].
  intros H. apply andb_true_iff in H as [_ Hrest].
  destruct (IH rest Hrest) as [k Hk]. exists (S k). lia.
Qed.

Lemma paired_drop (h : list message) (k : nat) :
  paired h = true → paired (drop (2 * k) h) = true.
Proof.
  revert h. induction k as [|k IH]; intros h Hp; [by rewrite drop_0|].
  replace (2 * S k) with (S (S (2 * k))) by lia.
  destruct h as [|m1 [|m2 rest]]; simpl in *; [done|done|].
  apply andb_true_iff in Hp as [_ Hrest]. by apply IH.
Qed.

Lemma paired_last_n (h : list message) (n : nat) :
  paired h = true → paired (last_n (2 * n) h) = true.
Proof.
  intros Hp. unfold last_n. destruct (paired_even h Hp) as [k Hk].
  replace (length h - 2 * n) with (2 * (k - n)) by lia.
  by apply paired_drop.
Qed.

End SessionFacts.

Section SessionClaims.
Import App Sessions.

(** Successful round-trips keep every session a sequence of
    question/answer pairs, the trim to twenty entries included. *)
Theorem round_trips_keep_pairs (E : env) (cs : list call) (a a' : app) :
  (∀ sid, paired (get_history sid a) = true) →
  round_trips E cs a = Some a' →
  ∀ sid, paired (get_history sid a') = true.
Proof.
  revert a. induction cs as [|c cs IH]; intros a Ha; simpl.
  - by intros [= <-].
  - destruct (round_trip E c a) as [[ans a1]|] eqn:Hc; [|done].
    apply IH. intros sid. unfold get_history.
    rewrite (round_trip_store _ _ _ _ _ Hc).
    destruct (decide (sid = call_session c)) as [->|Hne].
    + rewrite lookup_insert_eq. simpl. change 20 with (2 * 10).
      apply paired_last_n. by rewrite paired_app by apply Ha.
    + rewrite lookup_insert_ne by done. apply Ha.
Qed.

Lemma round_trips_keep_pairs_witness :
  paired (get_history "s1" two_trips) = true ∧
  paired (get_history "s2" two_trips) = true.
Proof.
  assert (∀ sid, paired (get_history sid two_trips) = true) as Hall.
  { apply (round_trips_keep_pairs Fixtures.paris_env
             [Buffered "q1" "s1"; Streamed "q2" "s2"] Fixtures.started).
    - intros sid. unfold get_history. simpl. by rewrite lookup_empty.
    - vm_compute. reflexivity. }
  split; apply Hall.
Defined.

Lemma rollback_after_question (sid question : string)
    (s : gmap string (list message)) :
  rollback_query sid
    (<[sid := default [] (s !! sid) ++ [Message User question]]> s) =
  ensure_session sid s.
Proof.
  unfold rollback_query, ensure_session. rewrite lookup_insert_eq.
  destruct (default [] (s !! sid) ++ [Message User question]) as [|m rest] eqn:Hh.
  { by destruct (default [] (s !! sid)). }
  cbv beta iota. rewrite <- Hh, but_last_snoc, insert_insert_eq.
  destruct (s !! sid) as [h|] eqn:Hs; simpl; [by apply insert_id|done].
Qed.

(** When the chain raises, the buffered endpoint answers with an error and
    takes the question back: every session reads as before (the session
    asked about now exists, empty if it was unknown) and the chain memory is
    unchanged. *)
Theorem query_failure_restores_history (E : env) (question sid : string)
    (a : app) (mem : chain_memory) (e : exn) :
  qa_chain a = Some mem →
  question ≠ ""%string →
  chain_invoke E mem question = inl e →
  (query E question sid a).1 = JsonError ("查询处理错误: " +:+ e) ∧
  chat_history_store (query E question sid a).2 =
    ensure_session sid (chat_history_store a) ∧
  (∀ sid', get_history sid' (query E question sid a).2 = get_history sid' a) ∧
  qa_chain (query E question sid a).2 = Some mem.
Proof.
  intros Hm Hq He. unfold query. rewrite Hm. case_decide; [done|].
  unfold query_body. rewrite append_user, He. simpl.
  rewrite rollback_after_question. split_and!; [done..| |done].
  intros sid'. unfold get_history. simpl.
  destruct (decide (sid' = sid)) as [->|Hne].
  - by rewrite ensure_session_lookup.
  - by rewrite ensure_session_other.
Qed.

Lemma query_failure_restores_history_witness :
  (query Fixtures.breaking_env "q1" "s1" one_pair).1 =
    JsonError "查询处理错误: connection lost" ∧
  get_history "s1" (query Fixtures.breaking_env "q1" "s1" one_pair).2 =
    [Message User "q0"; Message Assistant "a0"].
Proof.
  destruct (query_failure_restores_history Fixtures.breaking_env "q1" "s1"
              one_pair [("q0", "a0")%string] "connection lost")
    as (Hr & _ & Hh & _).
  - reflexivity.
  - discriminate.
  - reflexivity.
  - split; [exact Hr|]. rewrite Hh. vm_compute. reflexivity.
Defined.

(** When the retriever raises, the streaming endpoint answers with an
    error instead of a stream and takes the question back. *)
Theorem stream_retrieval_failure_restores_history (E : env)
    (question sid : string) (a : app) (e : exn) :
  streaming_ready a = true →
  question ≠ ""%string →
  retriever_invoke E question = inl e →
  stream_call E question sid a =
    (JsonError ("流式查询处理错误: " +:+ e), None,
     set_store a (ensure_session sid (chat_history_store a))) ∧
  ∀ sid', get_history sid' (stream_call E question sid a).2 = get_history sid' a.
Proof.
  intros Hr Hq He.
  assert (stream_call E question sid a =
    (JsonError ("流式查询处理错误: " +:+ e), None,
     set_store a (ensure_session sid (chat_history_store a)))) as Heq.
  { unfold stream_call, stream_query. rewrite Hr. case_decide; [done|].
    cbv zeta. rewrite append_user, He.
    change rollback_stream with rollback_query.
    by rewrite rollback_after_question. }
  split; [done|]. intros sid'. rewrite Heq. unfold get_history. simpl.
  destruct (decide (sid' = sid)) as [->|Hne].
  - by rewrite ensure_session_lookup.
  - by rewrite ensure_session_other.
Qed.

Lemma stream_retrieval_failure_restores_history_witness :
  stream_call retriever_down "q1" "s1" one_pair =
    (JsonError "流式查询处理错误: connection refused", None,
     set_store one_pair (ensure_session "s1" (chat_history_store one_pair))) ∧
  ∀ sid', get_history sid' (stream_call retriever_down "q1" "s1" one_pair).2 =
          get_history sid' one_pair.
Proof.
  apply (stream_retrieval_failure_restores_history retriever_down "q1" "s1"
           one_pair "connection refused").
  - reflexivity.
  - discriminate.
  - reflexivity.
Defined.

End SessionClaims.

Section IsolationFacts.
Import App Sessions.
Variable E : env.
Variables sid sid' : string.
Hypothesis other : sid' ≠ sid.

Lemma append_message_other (m : message) (s s' : gmap string (list message)) :
  append_message sid m s = inr s' → s' !! sid' = s !! sid'.
Proof using other.
  unfold append_message. destruct (s !! sid); [|done].
  intros [= <-]. by rewrite lookup_insert_ne.
Qed.

Lemma limit_history_other (s s' : gmap string (list message)) :
  limit_history sid s = inr s' → s' !! sid' = s !! sid'.
Proof using other.
  unfold limit_history. destruct (s !! sid); [|done].
  case_decide; intros [= <-]; [by rewrite lookup_insert_ne|done].
Qed.

Lemma rollback_query_other (s : gmap string (list message)) :
  rollback_query sid s !! sid' = s !! sid'.
Proof using other.
  unfold rollback_query. destruct (s !! sid) as [[|m rest]|]; [done| |done].
  by rewrite lookup_insert_ne.
Qed.

Lemma query_body_other (question : string) (mem : chain_memory)
    (s : gmap string (list message)) :
  (query_body E question sid mem s).1.1 !! sid' = s !! sid'.
Proof using other.
  unfold query_body.
  destruct (append_message sid _ (ensure_session sid s)) as [e|s2] eqn:H2; simpl.
  { by apply ensure_session_other. }
  assert (s2 !! sid' = s !! sid') as Hs2.
  { rewrite (append_message_other _ _ _ H2). by apply ensure_session_other. }
  destruct (chain_invoke E mem question) as [e|[answer docs]]; [done|].
  destruct (append_message sid _ s2) as [e|s3] eqn:H3; [done|].
  assert (s3 !! sid' = s !! sid') as Hs3.
  { by rewrite (append_message_other _ _ _ H3). }
  destruct (limit_history sid s3) as [e|s4] eqn:H4; [done|]. simpl.
  by rewrite (limit_history_other _ _ H4).
Qed.

Lemma query_other (question : string) (a : app) :
  chat_history_store (query E question sid a).2 !! sid' =
  chat_history_store a !! sid'.
Proof using other.
  unfold query.
  assert (∀ (b : app) (mem : chain_memory),
    chat_history_store
      (if decide (question = ""%string) then (JsonError "问题不能为空", b)
       else
         match query_body E question sid mem (chat_history_store b) with
         | (s, mem', inr (answer, sources)) =>
             (JsonSuccess answer sources, set_chain (set_store b s) mem')
         | (s, mem', inl e) =>
             (JsonError ("查询处理错误: " +:+ e),
              set_chain (set_store b (rollback_query sid s)) mem')
         end).2 !! sid' = chat_history_store b !! sid') as Hproceed.
  { intros b mem. case_decide; [done|].
    pose proof (query_body_other question mem (chat_history_store b)) as Hb.
    destruct (query_body E question sid mem (chat_history_store b))
      as [[s mem'] [e|[answer sources]]]; simpl in *; [|done].
    by rewrite rollback_query_other. }
  destruct (qa_chain a) as [mem|]; [apply Hproceed|].
  rewrite initialize_rag_system_eq. destruct (init_failure E); [done|].
  exact (Hproceed {| qa_chain := Some []; streaming_ready := true;
                     chat_history_store := chat_history_store a |} []).
Qed.

Lemma stream_query_other (question : string) (a : app) :
  chat_history_store (stream_query E question sid a).2 !! sid' =
  chat_history_store a !! sid'.
Proof using other.
  unfold stream_query.
  assert (∀ b : app,
    chat_history_store
      (if decide (question = ""%string) then (JsonError "问题不能为空", b)
       else
         let s1 := ensure_session sid (chat_history_store b) in
         match append_message sid (Message User question) s1 with
         | inl e => (Unhandled e, set_store b s1)
         | inr s2 =>
             match retriever_invoke E question with
             | inl e => (JsonError ("流式查询处理错误: " +:+ e),
                         set_store b (rollback_stream sid s2))
             | inr docs =>
                 (EventStream
                    {| g_session_id := sid; g_question := question;
                       g_docs := docs;
                       g_context := join (nl +:+ nl) (map page_content docs);
                       g_history_text :=
                         render_history (but_last (default [] (s2 !! sid))) |},
                  set_store b s2)
             end
         end).2 !! sid' = chat_history_store b !! sid') as Hproceed.
  { intros b. case_decide; [done|]. cbv zeta. rewrite append_user.
    destruct (retriever_invoke E question) as [e|docs]; simpl.
    - change rollback_stream with rollback_query.
      rewrite rollback_query_other. by rewrite lookup_insert_ne.
    - by rewrite lookup_insert_ne. }
  destruct (streaming_ready a); [apply Hproceed|].
  rewrite initialize_rag_system_eq. destruct (init_failure E); [done|].
  exact (Hproceed {| qa_chain := Some []; streaming_ready := true;
                     chat_history_store := chat_history_store a |}).
Qed.

Lemma generate_other (g : generator) (s : gmap string (list message)) :
  g_session_id g = sid →
  (generate E g s).2 !! sid' = s !! sid'.
Proof using other.
  intros Hg. unfold generate.
  destruct (stream_tokens (llm_stream E (gen_inputs g)) "") as [toks [e|answer]];
    [done|].
  rewrite Hg.
  destruct (append_message sid _ s) as [e|s1] eqn:H1; [done|].
  destruct (limit_history sid s1) as [e|s2] eqn:H2; simpl.
  - by apply (append_message_other _ _ _ H1).
  - rewrite (limit_history_other _ _ H2). by apply (append_message_other _ _ _ H1).
Qed.

Lemma stream_call_other (question : string) (a : app) :
  chat_history_store (stream_call E question sid a).2 !! sid' =
  chat_history_store a !! sid'.
Proof using other.
  unfold stream_call. pose proof (stream_query_other question a) as Hq.
  destruct (stream_query E question sid a) as [r a1] eqn:Hsq.
  destruct r as [m|ans srcs|g|e]; try done.
  destruct (stream_query_stream E _ _ _ _ _ Hsq) as (_ & Hsid & _).
  pose proof (generate_other g (chat_history_store a1) Hsid) as Hg.
  destruct (generate E g (chat_history_store a1)) as [[evs c] s]. simpl in *.
  by rewrite Hg.
Qed.

End IsolationFacts.

Section IsolationClaims.
Import App Sessions.

(** Whatever its outcome, a buffered or streamed request on one session
    leaves the stored history of every other session as it was. *)
Theorem requests_leave_other_sessions (E : env) (question sid sid' : string)
    (a : app) :
  sid' ≠ sid →
  get_history sid' (query E question sid a).2 = get_history sid' a ∧
  get_history sid' (stream_query E question sid a).2 = get_history sid' a ∧
  get_history sid' (stream_call E question sid a).2 = get_history sid' a.
Proof.
  intros Hne. unfold get_history.
  by rewrite query_other, stream_query_other, stream_call_other.
Qed.

Lemma requests_leave_other_sessions_witness :
  get_history "s1" (query Fixtures.paris_env "q" "s2" one_pair).2 =
    get_history "s1" one_pair ∧
  get_history "s1" (stream_query Fixtures.paris_env "q" "s2" one_pair).2 =
    get_history "s1" one_pair ∧
  get_history "s1" (stream_call Fixtures.paris_env "q" "s2" one_pair).2 =
    get_history "s1" one_pair.
Proof.
  apply (requests_leave_other_sessions Fixtures.paris_env "q" "s2" "s1" one_pair).
  discriminate.
Defined.

End IsolationClaims.

Section PromptClaims.
Import App Sessions.

(** The prompt of a streamed answer is assembled from three things only:
    the texts of the retrieved documents joined by blank lines, the
    question, and the rendering of this session's history as it stood
    before the question was appended. *)
Theorem stream_prompt_from_own_session (E : env) (question sid : string)
    (a a1 : app) (g : generator) :
  stream_query E question sid a = (EventStream g, a1) →
  ∃ docs,
    retriever_invoke E question = inr docs ∧
    g_docs g = docs ∧
    gen_inputs g =
      {| p_context := join (nl +:+ nl) (map page_content docs);
         p_chat_history := render_history (get_history sid a);
         p_question := question |}.
Proof.
  unfold stream_query, get_history.
  destruct (streaming_ready a);
    [|rewrite initialize_rag_system_eq; destruct (init_failure E); [done|]];
    (case_decide; [done|]); cbv zeta; rewrite append_user;
    (destruct (retriever_invoke E question) as [e|docs]; [done|]);
    intros [= <- <-]; exists docs; unfold gen_inputs; simpl;
    rewrite lookup_insert_eq; simpl; by rewrite but_last_snoc.
Qed.

Lemma stream_prompt_from_own_session_witness :
  ∃ docs,
    retriever_invoke Fixtures.paris_env "q1" = inr docs ∧
    g_docs (Generator "s1" "q1" [Fixtures.paris_doc]
              "Paris is the capital of France."
              (render_history [Message User "q0"; Message Assistant "a0"])) = docs ∧
    gen_inputs (Generator "s1" "q1" [Fixtures.paris_doc]
                  "Paris is the capital of France."
                  (render_history [Message User "q0"; Message Assistant "a0"])) =
      {| p_context := join (nl +:+ nl) (map page_content docs);
         p_chat_history := render_history (get_history "s1" one_pair);
         p_question := "q1" |}.
Proof.
  apply (stream_prompt_from_own_session Fixtures.paris_env "q1" "s1" one_pair
           (stream_query Fixtures.paris_env "q1" "s1" one_pair).2).
  vm_compute. reflexivity.
Defined.

(** The history rendering goes pair by pair: after an even number of
    entries it continues with the rest as if from the start, so a single
    entry left over at the end is not rendered at all. *)
Theorem render_history_by_pairs (history rest : list message) (k : nat) :
  length history = 2 * k →
  render_history (history ++ rest) =
  render_history history +:+ render_history rest.
Proof.
  revert history. induction k as [|k IH]; intros history Hlen.
  - destruct history; [done|]. simpl in Hlen. lia.
  - destruct history as [|m1 [|m2 tail]]; simpl in Hlen; [lia|lia|].
    change (render_history ((m1 :: m2 :: tail) ++ rest)) with
      ("用户: " +:+ content m1 +:+ nl +:+
       "助手: " +:+ content m2 +:+ nl +:+ nl +:+ render_history (tail ++ rest)).
    change (render_history (m1 :: m2 :: tail)) with
      ("用户: " +:+ content m1 +:+ nl +:+
       "助手: " +:+ content m2 +:+ nl +:+ nl +:+ render_history tail).
    rewrite IH by lia. by rewrite !string_app_assoc.
Qed.

Lemma render_history_by_pairs_witness :
  render_history ([Message User "q0"; Message Assistant "a0"] ++ [Message User "q1"]) =
  render_history [Message User "q0"; Message Assistant "a0"] +:+ "".
Proof.
  apply (render_history_by_pairs [Message User "q0"; Message Assistant "a0"]
           [Message User "q1"] 1).
  reflexivity.
Defined.

(** The chain memory grows by exactly the exchange of each buffered
    success; a buffered failure and a whole streamed request leave it as it
    is, so an exchange made through the streaming endpoint never reaches
    the memory the buffered endpoint answers from. *)
Theorem chain_memory_updates (E : env) (question sid : string) (a : app)
    (mem : chain_memory) :
  qa_chain a = Some mem →
  streaming_ready a = true →
  qa_chain (stream_call E question sid a).2 = Some mem ∧
  match (query E question sid a).1 with
  | JsonSuccess answer _ =>
      qa_chain (query E question sid a).2 = Some (mem ++ [(question, answer)])
  | _ => qa_chain (query E question sid a).2 = Some mem
  end.
Proof.
  intros Hm Hr. split.
  - unfold stream_call, stream_query. rewrite Hr.
    case_decide; [done|]. cbv zeta. rewrite append_user.
    destruct (retriever_invoke E question) as [e|docs]; [done|].
    by destruct (generate E _ _) as [[evs c] s].
  - unfold query. rewrite Hm. case_decide; [done|].
    unfold query_body. rewrite append_user.
    destruct (chain_invoke E mem question) as [e|[answer docs]]; [done|].
    erewrite append_message_Some by apply lookup_insert_eq.
    by erewrite limit_history_Some by apply lookup_insert_eq.
Qed.

Lemma chain_memory_updates_witness :
  qa_chain (stream_call Fixtures.paris_env "q1" "s1" one_pair).2 =
    Some [("q0", "a0")%string] ∧
  qa_chain (query Fixtures.paris_env "q1" "s1" one_pair).2 =
    Some [("q0", "a0"); ("q1", "Paris is the capital.")]%string.
Proof.
  destruct (chain_memory_updates Fixtures.paris_env "q1" "s1" one_pair
              [("q0", "a0")%string]) as [Hs Hq].
  - reflexivity.
  - reflexivity.
  - split; [exact Hs|exact Hq].
Defined.

End PromptClaims.

(** ** Further properties of the tracker *)
Section ListingFacts.
Import FileTracking.

Lemma prefix_cons (c : Ascii.ascii) (t s : string) :
  String.prefix (String c t) s = true → ∃ s', s = String c s'.
Proof.
  destruct s as [|b s']; simpl; [done|].
  destruct (Ascii.ascii_dec c b) as [->|]; [eauto|done].
Qed.

(** A name that ends with [e] has the last character of [e]. *)
Lemma ends_with_last (e z : string) (c : Ascii.ascii) (t : string) :
  String.rev e = String c t → ends_with e z = true →
  ∃ r, String.rev z = String c r.
Proof. unfold ends_with. intros ->. apply prefix_cons. Qed.

(** No name ends with two of the supported extensions. *)
Lemma extensions_exclusive (e1 e2 z : string) :
  e1 ∈ supported_extensions → e2 ∈ supported_extensions →
  ends_with e1 z = true → ends_with e2 z = true → e1 = e2.
Proof.
  unfold supported_extensions. rewrite !elem_of_cons, !elem_of_nil.
  intros H1 H2 He1 He2.
  repeat match goal with H : _ ∨ _ |- _ => destruct H as [->|H] end;
    try done;
    (eapply ends_with_last in He1 as [r1 Hr1]; [|vm_compute; reflexivity]);
    (eapply ends_with_last in He2 as [r2 Hr2]; [|vm_compute; reflexivity]);
    rewrite Hr1 in Hr2; discriminate.
Qed.

Lemma flat_map_bind {A B} (f : A → list B) (l : list A) :
  flat_map f l = l ≫= f.
Proof. induction l as [|x l IH]; [done|]. simpl. by rewrite IH. Qed.

Lemma map_fst_fmap {A B} (l : list (A * B)) : map fst l = l.*1.
Proof. induction l as [|x l IH]; [done|]. simpl. by rewrite IH. Qed.

Lemma elem_of_glob_ext (dir : gmap string file) (ext rel : string) :
  rel ∈ glob_ext dir ext ↔
  ends_with ext rel = true ∧ hidden rel = false ∧ is_Some (dir !! rel).
Proof.
  unfold glob_ext. rewrite list_elem_of_filter, map_fst_fmap, list_elem_of_fmap.
  rewrite andb_true_iff, negb_true_iff. split.
  - intros [[He Hh] ([k f] & -> & Hin)]. apply elem_of_map_to_list in Hin.
    simpl in *. eauto.
  - intros (He & Hh & [f Hf]). split; [done|]. exists (rel, f).
    split; [done|]. by apply elem_of_map_to_list.
Qed.

Lemma elem_of_current_rel_paths (dir : gmap string file) (rel : string) :
  rel ∈ current_rel_paths dir ↔
  is_Some (dir !! rel) ∧ hidden rel = false ∧
  ∃ ext, ext ∈ supported_extensions ∧ ends_with ext rel = true.
Proof.
  unfold current_rel_paths. rewrite flat_map_bind, list_elem_of_bind.
  split.
  - intros (ext & Hrel & Hext). apply elem_of_glob_ext in Hrel as (He & Hh & Hf).
    split_and!; [done..|]. by exists ext.
  - intros (Hf & Hh & ext & Hext & He). exists ext. split; [|done].
    by apply elem_of_glob_ext.
Qed.

Lemma current_rel_paths_NoDup (dir : gmap string file) :
  NoDup (current_rel_paths dir).
Proof.
  unfold current_rel_paths. rewrite flat_map_bind. apply NoDup_bind.
  - intros e1 e2 rel H1 H2 Hr1 Hr2.
    apply elem_of_glob_ext in Hr1 as (He1 & _).
    apply elem_of_glob_ext in Hr2 as (He2 & _).
    by eapply extensions_exclusive.
  - intros ext _. unfold glob_ext. apply NoDup_filter.
    rewrite map_fst_fmap. apply NoDup_fst_map_to_list.
  - unfold supported_extensions.
    refine (bool_decide_unpack _ _). vm_compute. exact I.
Qed.

End ListingFacts.

Section ScanFacts.
Import FileTracking Scan.
Variable E : env.
Variable kd : string.
Variable dir : gmap string file.

Lemma filter_ext_elem {A} (P Q : A → Prop) `{!∀ x, Decision (P x)}
    `{!∀ x, Decision (Q x)} (l : list A) :
  (∀ x, x ∈ l → (P x ↔ Q x)) → filter P l = filter Q l.
Proof.
  induction l as [|a l IH]; intros Hl; [done|].
  rewrite !filter_cons.
  rewrite IH by (intros x Hx; apply Hl; by right).
  destruct (decide (P a)) as [Hp|Hp], (decide (Q a)) as [Hq|Hq]; try done;
    exfalso; apply (Hl a (list_elem_of_here _ _)) in Hp || apply Hp;
    try done; by apply (Hl a (list_elem_of_here _ _)).
Qed.

(** What one iteration adds to the list of reported paths. *)
Lemma check_file_step (st st' : scan_state) (rel : string) :
  check_file E kd dir st rel = inr st' →
  new_or_changed_files st' =
    new_or_changed_files st ++
    (if needs_update E dir (tracked_files st) rel then [path_join kd rel] else []).
Proof.
  unfold check_file, needs_update.
  destruct (tracked_files st !! rel) as [entry|].
  - destruct (calculate_file_hash E dir rel) as [e|h]; [done|].
    destruct (decide (h ≠ hash entry)) as [Hd|Hd].
    + rewrite bool_decide_eq_true_2 by done.
      destruct (get_file_metadata E dir rel (scan_clock st)) as [e|[m c]]; [done|].
      by intros [= <-].
    + rewrite bool_decide_eq_false_2 by done. intros [= <-].
      by rewrite app_nil_r.
  - destruct (get_file_metadata E dir rel (scan_clock st)) as [e|[m c]]; [done|].
    by intros [= <-].
Qed.

Lemma needs_update_other (st st' : scan_state) (rel p : string) :
  check_file E kd dir st rel = inr st' → p ≠ rel →
  needs_update E dir (tracked_files st') p = needs_update E dir (tracked_files st) p.
Proof.
  intros H Hne. unfold needs_update.
  by rewrite (check_file_other E kd dir _ _ _ _ H Hne).
Qed.

(** The loop reports, in listing order, the files that need an update
    with respect to the entries it started from. *)
Lemma check_files_reports (rels : list string) (st st' : scan_state) :
  NoDup rels →
  check_files E kd dir rels st = inr st' →
  new_or_changed_files st' =
    new_or_changed_files st ++
    map (path_join kd)
      (filter (λ rel, needs_update E dir (tracked_files st) rel = true) rels).
Proof.
  revert st. induction rels as [|rel rest IH]; intros st Hnd; simpl.
  - intros [= <-]. by rewrite app_nil_r.
  - destruct (check_file E kd dir st rel) as [e|st1] eqn:H1; [done|].
    apply NoDup_cons in Hnd as [Hnotin Hnd]. intros Hrest.
    rewrite (IH st1 Hnd Hrest), (check_file_step _ _ _ H1), <- app_assoc.
    f_equal. rewrite filter_cons.
    rewrite (filter_ext_elem
               (λ p, needs_update E dir (tracked_files st1) p = true)
               (λ p, needs_update E dir (tracked_files st) p = true) rest).
    + by destruct (needs_update E dir (tracked_files st) rel); case_decide.
    + intros p Hp. rewrite (needs_update_other _ _ _ _ H1); [done|].
      intros ->. contradiction.
Qed.

(** A readable file never makes an iteration raise. *)
Lemma check_file_readable (st : scan_state) (rel h : string) :
  calculate_file_hash E dir rel = inr h →
  ∃ st', check_file E kd dir st rel = inr st'.
Proof.
  intros Hh. unfold check_file.
  assert (∃ m c, get_file_metadata E dir rel (scan_clock st) = inr (m, c))
    as (m & c & Hm).
  { unfold get_file_metadata. rewrite Hh.
    unfold calculate_file_hash in Hh. destruct (dir !! rel); [eauto|done]. }
  rewrite Hh, Hm.
  destruct (tracked_files st !! rel); [case_decide|]; eauto.
Qed.

Lemma check_files_readable (rels : list string) (st : scan_state) :
  (∀ rel, rel ∈ rels → ∃ h, calculate_file_hash E dir rel = inr h) →
  ∃ st', check_files E kd dir rels st = inr st'.
Proof.
  revert st. induction rels as [|rel rest IH]; intros st Hall; simpl; [eauto|].
  destruct (Hall rel (list_elem_of_here _ _)) as [h Hh].
  destruct (check_file_readable st rel h Hh) as [st1 ->].
  apply IH. intros p Hp. apply Hall. by right.
Qed.

(** An entry found after an iteration is the one found before it, or was
    just built from the file's size, modification time and digest. *)
Lemma check_file_entries (st st' : scan_state) (rel p : string)
    (entry : tracked_file) :
  check_file E kd dir st rel = inr st' →
  tracked_files st' !! p = Some entry →
  tracked_files st !! p = Some entry ∨
  ∃ f, dir !! p = Some f ∧ size entry = st_size f ∧
       modified_time entry = st_mtime f ∧
       calculate_file_hash E dir p = inr (hash entry).
Proof.
  intros H Hp. destruct (decide (p = rel)) as [->|Hne].
  2: { left. by rewrite <- (check_file_other E kd dir _ _ _ _ H Hne). }
  revert H. unfold check_file.
  assert (∀ m c, get_file_metadata E dir rel (scan_clock st) = inr (m, c) →
            tracked_files st' = <[rel := m]> (tracked_files st) →
            ∃ f, dir !! rel = Some f ∧ size entry = st_size f ∧
                 modified_time entry = st_mtime f ∧
                 calculate_file_hash E dir rel = inr (hash entry)) as Hfresh.
  { intros m c Hm Ht. rewrite Ht, lookup_insert_eq in Hp. simplify_eq.
    apply get_file_metadata_inr in Hm as (Hh & _ & f & Hf & Hs & Ht').
    by exists f. }
  destruct (tracked_files st !! rel) as [old|] eqn:Hold.
  - destruct (calculate_file_hash E dir rel) as [e|h]; [done|].
    case_decide.
    + destruct (get_file_metadata E dir rel (scan_clock st)) as [e|[m c]] eqn:Hm;
        [done|].
      intros [= <-]. right. by eapply Hfresh.
    + intros [= <-]. left. congruence.
  - destruct (get_file_metadata E dir rel (scan_clock st)) as [e|[m c]] eqn:Hm;
      [done|].
    intros [= <-]. right. by eapply Hfresh.
Qed.

Lemma check_files_entries (rels : list string) (st st' : scan_state)
    (p : string) (entry : tracked_file) :
  check_files E kd dir rels st = inr st' →
  tracked_files st' !! p = Some entry →
  tracked_files st !! p = Some entry ∨
  ∃ f, dir !! p = Some f ∧ size entry = st_size f ∧
       modified_time entry = st_mtime f ∧
       calculate_file_hash E dir p = inr (hash entry).
Proof.
  revert st. induction rels as [|rel rest IH]; intros st; simpl.
  - intros [= <-]. by left.
  - destruct (check_file E kd dir st rel) as [e|st1] eqn:H1; [done|].
    intros Hrest Hp. destruct (IH st1 Hrest Hp) as [Hold|Hfresh]; [|by right].
    by eapply check_file_entries.
Qed.

End ScanFacts.

Section ScanClaims.
Import FileTracking Scan.

(** The listing the scan works from holds each path once, and holds
    exactly the entries of the directory that are not hidden (no component
    starting with a dot) and whose name ends with a supported extension. *)
Theorem listing_is_exact (dir : gmap string file) :
  NoDup (current_rel_paths dir) ∧
  ∀ rel,
    rel ∈ current_rel_paths dir ↔
    is_Some (dir !! rel) ∧ hidden rel = false ∧
    ∃ ext, ext ∈ supported_extensions ∧ ends_with ext rel = true.
Proof.
  split; [apply current_rel_paths_NoDup|apply elem_of_current_rel_paths].
Qed.

(** A completed scan returns, in listing order, exactly the listed files
    that have no manifest entry or whose digest differs from the stored
    one. *)
Theorem scan_reports_exactly (E : env) (kd : string) (w w1 : world)
    (changed : list string) :
  check_files_changed E kd w = (inr changed, w1) →
  changed =
    map (path_join kd)
      (filter (λ rel, needs_update E (directory w) (manifest w) rel = true)
         (current_rel_paths (directory w))).
Proof.
  rewrite check_files_changed_eq. cbv zeta.
  destruct (check_files _ _ _ _ _) as [e|st] eqn:Hloop; [done|].
  intros [= <- <-].
  by rewrite (check_files_reports E kd _ _ _ _ (current_rel_paths_NoDup _) Hloop).
Qed.

Lemma scan_reports_exactly_witness :
  ["./knowledge_base/docs/guide.md"%string] =
    map (path_join Fixtures.kb)
      (filter (λ rel, needs_update Fixtures.plain_digest (directory mixed)
                        (manifest mixed) rel = true)
         (current_rel_paths (directory mixed))).
Proof.
  apply (scan_reports_exactly Fixtures.plain_digest Fixtures.kb mixed
           (check_files_changed Fixtures.plain_digest Fixtures.kb mixed).2).
  vm_compute. reflexivity.
Defined.

(** The scan returns a list exactly when every listed file can be read;
    otherwise it raises. *)
Theorem scan_completes_iff_readable (E : env) (kd : string) (w : world) :
  (∃ changed, (check_files_changed E kd w).1 = inr changed) ↔
  ∀ rel, rel ∈ current_rel_paths (directory w) →
         ∃ h, calculate_file_hash E (directory w) rel = inr h.
Proof.
  rewrite check_files_changed_eq. cbv zeta. split.
  - intros [changed Hc] rel Hin.
    destruct (calculate_file_hash E (directory w) rel) as [e|h] eqn:Hh; [|eauto].
    destruct (check_files_unreadable E kd (directory w) _
                {| tracked_files := manifest w; new_or_changed_files := [];
                   scan_clock := (load_file_tracking (tracking w) (clock w)).2 |}
                rel e Hin Hh) as [e' He'].
    by rewrite He' in Hc.
  - intros Hall.
    destruct (check_files_readable E kd (directory w) _
                {| tracked_files := manifest w; new_or_changed_files := [];
                   scan_clock := (load_file_tracking (tracking w) (clock w)).2 |}
                Hall) as [st ->].
    eauto.
Qed.

(** A listed file with no manifest entry is reported by a completed scan,
    and the manifest then holds for it the file's size, modification time
    and digest. *)
Theorem new_file_tracked_with_metadata (E : env) (kd : string) (w w1 : world)
    (changed : list string) (rel : string) :
  check_files_changed E kd w = (inr changed, w1) →
  rel ∈ current_rel_paths (directory w) →
  manifest w !! rel = None →
  path_join kd rel ∈ changed ∧
  ∃ f entry,
    directory w !! rel = Some f ∧ manifest w1 !! rel = Some entry ∧
    size entry = st_size f ∧ modified_time entry = st_mtime f ∧
    calculate_file_hash E (directory w) rel = inr (hash entry).
Proof.
  rewrite check_files_changed_eq. cbv zeta.
  destruct (check_files _ _ _ _ _) as [e|st] eqn:Hloop; [done|].
  intros [= <- <-] Hin Hnew. split.
  - rewrite (check_files_reports E kd _ _ _ _ (current_rel_paths_NoDup _) Hloop).
    simpl. apply list_elem_of_fmap_2. apply list_elem_of_filter. split; [|done].
    unfold needs_update. by rewrite Hnew.
  - destruct (check_files_up_to_date E kd _ _ _ _ rel Hloop (or_introl Hin))
      as (entry & Hentry & _).
    destruct (check_files_entries E kd _ _ _ _ _ _ Hloop Hentry)
      as [Hold|(f & Hf & Hs & Ht & Hh)].
    + simpl in Hold. congruence.
    + exists f, entry. unfold manifest. simpl.
      by rewrite drop_deleted_lookup.
Qed.

Lemma new_file_tracked_with_metadata_witness :
  path_join Fixtures.kb "docs/guide.md" ∈
    (["./knowledge_base/docs/guide.md"]%string : list string) ∧
  ∃ f entry,
    directory mixed !! "docs/guide.md"%string = Some f ∧
    manifest (check_files_changed Fixtures.plain_digest Fixtures.kb mixed).2
      !! "docs/guide.md"%string = Some entry ∧
    size entry = st_size f ∧ modified_time entry = st_mtime f ∧
    calculate_file_hash Fixtures.plain_digest (directory mixed) "docs/guide.md" =
      inr (hash entry).
Proof.
  apply (new_file_tracked_with_metadata Fixtures.plain_digest Fixtures.kb mixed
           (check_files_changed Fixtures.plain_digest Fixtures.kb mixed).2).
  - vm_compute. reflexivity.
  - vm_compute. by repeat constructor.
  - vm_compute. reflexivity.
Defined.

(** After a completed scan the manifest has an entry for a path exactly
    when the path is listed: entries of files that are gone (or no longer
    listed) have been dropped, and no listed file is missing. *)
Theorem manifest_tracks_exactly_the_listing (E : env) (kd : string)
    (w w1 : world) (changed : list string) :
  check_files_changed E kd w = (inr changed, w1) →
  ∀ rel, is_Some (manifest w1 !! rel) ↔ rel ∈ current_rel_paths (directory w).
Proof.
  intros Hscan rel.
  destruct (scanned_manifest E kd w w1 changed Hscan) as (_ & _ & Hup & Hdrop).
  split.
  - intros [entry Hentry]. rewrite <- Hdrop in Hentry.
    unfold drop_deleted in Hentry.
    by apply map_lookup_filter_Some in Hentry as [_ Hin].
  - intros Hin. destruct (Hup rel Hin) as (entry & Hentry & _). by exists entry.
Qed.

Lemma manifest_tracks_exactly_the_listing_witness :
  (manifest mixed !! "gone.txt"%string = Some (TrackedFile 3 90 "old" 1)) ∧
  ∀ rel,
    is_Some (manifest (check_files_changed Fixtures.plain_digest Fixtures.kb
                         mixed).2 !! rel) ↔
    rel ∈ current_rel_paths (directory mixed).
Proof.
  split; [vm_compute; reflexivity|].
  apply (manifest_tracks_exactly_the_listing Fixtures.plain_digest Fixtures.kb
           mixed _ ["./knowledge_base/docs/guide.md"]%string).
  vm_compute. reflexivity.
Defined.

(** With a tracking file that is missing or does not parse, the scan starts
    from an empty manifest: when every listed file is readable it reports
    every listed file, in listing order, instead of failing. *)
Theorem unreadable_manifest_means_full_scan (E : env) (kd : string) (w : world) :
  tracking w = Absent ∨ tracking w = Unparsable →
  (∀ rel, rel ∈ current_rel_paths (directory w) →
          ∃ h, calculate_file_hash E (directory w) rel = inr h) →
  (check_files_changed E kd w).1 =
    inr (map (path_join kd) (current_rel_paths (directory w))).
Proof.
  intros Ht Hall. rewrite check_files_changed_eq. cbv zeta.
  assert (manifest w = ∅) as Hm.
  { unfold manifest. by destruct Ht as [-> | ->]. }
  destruct (check_files_readable E kd (directory w) _
              {| tracked_files := manifest w; new_or_changed_files := [];
                 scan_clock := (load_file_tracking (tracking w) (clock w)).2 |}
              Hall) as [st Hloop].
  rewrite Hloop. simpl.
  rewrite (check_files_reports E kd _ _ _ _ (current_rel_paths_NoDup _) Hloop).
  simpl. do 2 f_equal. rewrite Hm.
  assert (∀ l : list string,
            filter (λ rel, needs_update E (directory w) ∅ rel = true) l = l)
    as Hall_new.
  { induction l as [|rel rest IH]; [done|].
    rewrite filter_cons_True; [by rewrite IH|].
    unfold needs_update. by rewrite lookup_empty. }
  apply Hall_new.
Qed.

Lemma unreadable_manifest_means_full_scan_witness :
  (check_files_changed Fixtures.plain_digest Fixtures.kb mixed_unparsable).1 =
    inr (map (path_join Fixtures.kb)
           (current_rel_paths (directory mixed_unparsable))).
Proof.
  apply (unreadable_manifest_means_full_scan Fixtures.plain_digest Fixtures.kb
           mixed_unparsable).
  - right. reflexivity.
  - intros rel Hin. apply elem_of_current_rel_paths in Hin as ([f Hf] & _).
    unfold calculate_file_hash. rewrite Hf.
    change (directory mixed_unparsable) with (directory mixed) in Hf.
    unfold mixed in Hf. simpl in Hf.
    repeat (apply lookup_insert_Some in Hf as [[_ <-]|[_ Hf]]; [simpl; eauto|]).
    apply lookup_singleton_Some in Hf as [_ <-]. simpl. eauto.
Defined.

End ScanClaims.

(** ** Further properties of the loaders *)
Section LoaderClaims.
Import FileLoaders.


Lemma load_into_elem (E : env) (file_paths : list string)
    (documents : list document) (d : document) :
  d ∈ load_into E file_paths documents →
  d ∈ documents ∨
  ∃ path file_docs, path ∈ file_paths ∧ load_file E path = inr file_docs ∧
                    d ∈ file_docs.
Proof.
  revert documents. induction file_paths as [|path rest IH]; intros documents;
    simpl; [by left|].
  destruct (load_file E path) as [e|file_docs] eqn:Hload; intros Hd.
  - destruct (IH _ Hd) as [?|(p & ds & Hp & Hl & Hin)]; [by left|].
    right. exists p, ds. split; [by right|done].
  - destruct (IH _ Hd) as [Hin|(p & ds & Hp & Hl & Hin)].
    + apply elem_of_app in Hin as [?|?]; [by left|].
      right. exists path, file_docs. split; [by left|done].
    + right. exists p, ds. split; [by right|done].
Qed.

(** Every document a batch load returns comes from a file of the batch
    that has a loader, and carries that file's base name as [source_file]
    and its path as [file_path]; its text and page are the loader's. *)
Theorem loaded_documents_are_tagged (E : env) (file_paths : list string)
    (d : document) :
  d ∈ load_specific_documents E file_paths →
  ∃ path l raw,
    path ∈ file_paths ∧ get_file_loader path = Some l ∧
    (∃ raw_docs, loader_load E l path = inr raw_docs ∧ raw ∈ raw_docs) ∧
    source_file d = Some (basename path) ∧ file_path d = Some path ∧
    page_content d = page_content raw ∧ page d = page raw.
Proof.
  unfold load_specific_documents. intros Hd.
  apply load_into_elem in Hd as [Hd|(path & file_docs & Hp & Hl & Hin)].
  { by apply elem_of_nil in Hd. }
  unfold load_file in Hl. destruct (get_file_loader path) as [l|] eqn:Hloader.
  - destruct (loader_load E l path) as [e|raw_docs] eqn:Hraw; [done|].
    simplify_eq. apply list_elem_of_fmap in Hin as (raw & -> & Hraw_in).
    exists path, l, raw. split_and!; try done. by exists raw_docs.
  - simplify_eq. by apply elem_of_nil in Hin.
Qed.

Lemma loaded_documents_are_tagged_witness :
  ∃ path l raw,
    path ∈ ["./knowledge_base/a.txt"; "./knowledge_base/b.txt"]%string ∧
    get_file_loader path = Some l ∧
    (∃ raw_docs, loader_load Fixtures.b_fails l path = inr raw_docs ∧
                 raw ∈ raw_docs) ∧
    source_file (Document "text" (Some "a.txt"%string)
                   (Some "./knowledge_base/a.txt"%string) None) =
      Some (basename path) ∧
    file_path (Document "text" (Some "a.txt"%string)
                 (Some "./knowledge_base/a.txt"%string) None) = Some path ∧
    page_content (Document "text" (Some "a.txt"%string)
                    (Some "./knowledge_base/a.txt"%string) None) =
      page_content raw ∧
    page (Document "text" (Some "a.txt"%string)
            (Some "./knowledge_base/a.txt"%string) None) = page raw.
Proof.
  apply (loaded_documents_are_tagged Fixtures.b_fails
           ["./knowledge_base/a.txt"; "./knowledge_base/b.txt"]%string).
  vm_compute. constructor.
Defined.

(** A batch load is the concatenation, in batch order, of what each file
    yields on its own: its tagged documents when its loader returns, and
    nothing when the file has no loader or its loader raises. *)
Theorem load_is_per_file (E : env) (file_paths : list string) :
  load_specific_documents E file_paths =
  file_paths ≫= (λ path,
    match get_file_loader path with
    | None => []
    | Some l =>
        match loader_load E l path with
        | inl _ => []
        | inr raw_docs => map (tag_document path) raw_docs
        end
    end).
Proof.
  induction file_paths as [|path rest IH]; [done|].
  rewrite load_specific_documents_cons, IH. csimpl. f_equal.
  unfold load_file. destruct (get_file_loader path) as [l|]; [|done].
  by destruct (loader_load E l path).
Qed.

End LoaderClaims.

(** ** Building the vector store at start-up *)
Section StartupFacts.
Import FileTracking VectorStore Startup.

(** Whatever branch it takes, [initialize_or_load_vector_store] leaves
    every persisted vector in place. *)
Lemma initialize_keeps_vectors (E : VectorStore.env)
    (docs : option (list document)) (disk : option store_dir)
    (v : indexed_vector) :
  v ∈ default [] (disk ≫= collection) →
  v ∈ default [] ((initialize_or_load_vector_store E docs disk).2 ≫= collection).
Proof.
  intros Hv. unfold initialize_or_load_vector_store.
  assert (v ∈ vectors (open_collection disk)) as Hopen.
  { by destruct disk as [[others [c|]]|]. }
  destruct (index_exists disk), (truthy docs); simpl; try done;
    unfold add_documents;
    destruct (embed_documents E _) as [e|vs]; simpl; try done;
    apply elem_of_app; by left.
Qed.

(** Once the scan has saved the tracking file, the vector store directory
    is not empty. *)
Lemma tracking_file_fills_store_dir (w : world) (tracked : tracking_data)
    (c : option (list indexed_vector)) :
  tracking w = Saved tracked →
  index_exists (vector_store_dir {| knowledge := w; chroma := c |}) = true.
Proof.
  intros Ht. unfold vector_store_dir, index_exists. simpl. rewrite Ht.
  by apply bool_decide_eq_true.
Qed.

Lemma set_clock_same (w : world) : set_clock w (clock w) = w.
Proof. by destruct w. Qed.

End StartupFacts.

Section StartupClaims.
Import FileTracking VectorStore Startup.

(** Start-up never takes the create-from-scratch path: a completed scan
    has written the tracking file into the vector store directory, so the
    directory counts as an existing index.  Hence, when the embedding
    service answers, start-up returns a store (on a fresh installation with
    nothing to ingest, an empty one) instead of raising for want of
    documents, and with no changed file the store is the persisted
    collection as it was. *)
Theorem startup_never_needs_bootstrap (E : env) (kd : string) (d : disk)
    (changed : list string) (w1 : world) :
  check_files_changed (tracker E) kd (knowledge d) = (inr changed, w1) →
  (∀ texts, ∃ vs, embed_documents (embedder E) texts = inr vs) →
  index_exists (vector_store_dir {| knowledge := w1; chroma := chroma d |}) = true ∧
  ∃ store,
    (build_vector_store E kd d).1 = inr store ∧
    chroma (build_vector_store E kd d).2 = collection store ∧
    (changed = [] → vectors store = persisted_vectors d).
Proof.
  intros Hscan Hembed.
  destruct (scanned_manifest (tracker E) kd _ _ _ Hscan)
    as (_ & (tracked & Ht & _) & _).
  pose proof (tracking_file_fills_store_dir w1 tracked (chroma d) Ht) as Hexists.
  split; [done|].
  unfold build_vector_store. rewrite Hscan. cbv zeta.
  destruct changed as [|p rest].
  - rewrite Hexists. unfold initialize_or_load_vector_store.
    rewrite Hexists. simpl. eauto.
  - unfold initialize_or_load_vector_store. rewrite Hexists.
    destruct (truthy _) eqn:Htruthy.
    + unfold add_documents.
      destruct (Hembed (map page_content
                  (default [] (Some (split_documents E
                     (FileLoaders.load_specific_documents (loaders E)
                        (p :: rest))))))) as [vs ->].
      simpl. eexists. split_and!; [done..|]. by intros [=].
    + simpl. eexists. split_and!; [done..|]. by intros [=].
Qed.

Lemma startup_never_needs_bootstrap_witness :
  index_exists
    (vector_store_dir
       {| knowledge :=
            (check_files_changed Fixtures.plain_digest Fixtures.kb
               (knowledge fresh_install)).2;
          chroma := None |}) = true ∧
  ∃ store,
    (build_vector_store sample_env Fixtures.kb fresh_install).1 = inr store ∧
    chroma (build_vector_store sample_env Fixtures.kb fresh_install).2 =
      collection store ∧
    (([] : list string) = [] → vectors store = persisted_vectors fresh_install).
Proof.
  apply (startup_never_needs_bootstrap sample_env Fixtures.kb fresh_install []).
  - vm_compute. reflexivity.
  - intros texts. eexists. reflexivity.
Defined.

(** Starting again over an unchanged knowledge directory embeds nothing:
    after a start-up that returned, the next one returns the persisted
    collection as it is and leaves it as it is, whatever the loaders, the
    splitter and the embedding service would do. *)
Theorem restart_embeds_nothing (E E' : env) (kd : string) (d d1 : disk)
    (store : store_dir) :
  build_vector_store E kd d = (inr store, d1) →
  tracker E' = tracker E →
  ∃ store',
    (build_vector_store E' kd d1).1 = inr store' ∧
    vectors store' = persisted_vectors d1 ∧
    persisted_vectors (build_vector_store E' kd d1).2 = persisted_vectors d1.
Proof.
  unfold build_vector_store at 1.
  destruct (check_files_changed (tracker E) kd (knowledge d))
    as [[e|changed] w1] eqn:Hscan; [done|].
  cbv zeta. intros Hbuild Htracker.
  assert (knowledge d1 = w1) as Hk.
  { revert Hbuild.
    destruct changed as [|p rest];
      [destruct (index_exists _)|];
      destruct (initialize_or_load_vector_store _ _ _) as [r persisted];
      by intros [= _ <-]. }
  pose proof (second_scan (tracker E) kd _ _ _ (clock w1) Hscan) as Hsecond.
  rewrite set_clock_same in Hsecond.
  unfold build_vector_store. rewrite Htracker, Hk, Hsecond. cbv zeta.
  pose proof (tracking_file_fills_store_dir
                (set_tracking w1
                   (Saved {| files := manifest w1; last_update := clock w1 |})
                   (S (clock w1)))
                {| files := manifest w1; last_update := clock w1 |}
                (chroma d1) eq_refl) as Hexists.
  rewrite Hexists. unfold initialize_or_load_vector_store. rewrite Hexists.
  simpl. eexists. split_and!; [done| |];
    unfold persisted_vectors, vectors; simpl; by destruct (chroma d1).
Qed.

Lemma restart_embeds_nothing_witness :
  ∃ store',
    (build_vector_store embedder_down Fixtures.kb after_first_run).1 = inr store' ∧
    vectors store' = persisted_vectors after_first_run ∧
    persisted_vectors (build_vector_store embedder_down Fixtures.kb
                         after_first_run).2 =
      persisted_vectors after_first_run.
Proof.
  apply (restart_embeds_nothing sample_env embedder_down Fixtures.kb first_run
           after_first_run
           {| other_entries := ["file_tracking.json"%string];
              collection :=
                Some [IndexedVector [7] Fixtures.paris_doc;
                      IndexedVector [4]
                        (Document "text" (Some "a.txt"%string)
                           (Some "./knowledge_base/a.txt"%string) None)] |}).
  - vm_compute. reflexivity.
  - reflexivity.
Defined.

(** Start-up never removes a vector from the persisted collection,
    whatever happened to the files: vectors of files that were changed or
    deleted stay beside the new ones. *)
Theorem startup_never_discards_vectors (E : env) (kd : string) (d : disk)
    (v : indexed_vector) :
  v ∈ persisted_vectors d →
  v ∈ persisted_vectors (build_vector_store E kd d).2.
Proof.
  intros Hv. unfold build_vector_store.
  destruct (check_files_changed (tracker E) kd (knowledge d))
    as [[e|changed] w1]; [done|].
  cbv zeta.
  assert (∀ docs,
    v ∈ persisted_vectors
          (let '(r, persisted) :=
             initialize_or_load_vector_store (embedder E) docs
               (vector_store_dir {| knowledge := w1; chroma := chroma d |}) in
           (r, store_back {| knowledge := w1; chroma := chroma d |} persisted)).2)
    as Hrun.
  { intros docs.
    pose proof (initialize_keeps_vectors (embedder E) docs
                  (vector_store_dir {| knowledge := w1; chroma := chroma d |})
                  v Hv) as Hkeep.
    destruct (initialize_or_load_vector_store _ _ _) as [r [sd|]]; simpl in *;
      done. }
  destruct changed as [|p rest]; [destruct (index_exists _)|]; apply Hrun.
Qed.

Lemma startup_never_discards_vectors_witness :
  IndexedVector [7] Fixtures.paris_doc ∈
    persisted_vectors (build_vector_store sample_env Fixtures.kb first_run).2.
Proof.
  apply (startup_never_discards_vectors sample_env Fixtures.kb first_run).
  vm_compute. constructor.
Defined.

End StartupClaims.

(** ** The terminal front end *)
Section TerminalFacts.
Import Terminal.




End TerminalFacts.

Section TerminalClaims.
Import Terminal.


(** The history display labels entries by position, so on a history made
    of whole exchanges every question is printed as the user's line and
    every answer as the system's. *)
Theorem history_display_labels_exchanges (exchanges : list (string * string)) :
  display_chat_history (exchanges_flat exchanges) =
  (nl +:+ "=== 对话历史 ===") ::
  (exchanges ≫= (λ qa, ["用户: " +:+ qa.1; "系统: " +:+ qa.2])).
Proof.
  unfold display_chat_history, exchanges_flat. f_equal.
  induction exchanges as [|[q a] rest IH]; [done|].
  csimpl. rewrite <- IH. by do 2 f_equal.
Qed.

End TerminalClaims.

(** ** Paths: the scan and the loader dispatch agree *)
Section PathFacts.

Lemma string_rev_app_acc (s acc : string) :
  String.rev_app s acc = String.rev s +:+ acc.
Proof.
  unfold String.rev. revert acc. induction s as [|c s IH]; intros acc; [done|].
  simpl. rewrite (IH (String c acc)), (IH (String c "")).
  by rewrite string_app_assoc.
Qed.

Lemma string_rev_cons (c : Ascii.ascii) (s : string) :
  String.rev (String c s) = String.rev s +:+ String c "".
Proof. unfold String.rev at 1. simpl. apply string_rev_app_acc. Qed.

Lemma string_rev_app (a b : string) :
  String.rev (a +:+ b) = String.rev b +:+ String.rev a.
Proof.
  induction a as [|c a IH].
  - change ("" +:+ b) with b. by rewrite string_app_nil_r.
  - change (String c a +:+ b) with (String c (a +:+ b)).
    by rewrite !string_rev_cons, IH, string_app_assoc.
Qed.

Lemma string_rev_involutive (s : string) : String.rev (String.rev s) = s.
Proof.
  induction s as [|c s IH]; [done|].
  by rewrite string_rev_cons, string_rev_app, IH.
Qed.

Lemma prefix_inv (p s : string) :
  String.prefix p s = true → ∃ t, s = p +:+ t.
Proof.
  revert s. induction p as [|c p IH]; intros s; [by exists s|].
  intros H. destruct (prefix_cons c p s H) as [s' ->]. simpl in H.
  destruct (Ascii.ascii_dec c c); [|done].
  destruct (IH s' H) as [t ->]. by exists t.
Qed.

Lemma prefix_app (p t : string) : String.prefix p (p +:+ t) = true.
Proof.
  induction p as [|c p IH]; [by destruct t|].
  change (String c p +:+ t) with (String c (p +:+ t)). simpl.
  by destruct (Ascii.ascii_dec c c).
Qed.

(** A name that ends with [e] is some text followed by [e]. *)
Lemma ends_with_inv (e s : string) :
  ends_with e s = true → ∃ pre, s = pre +:+ e.
Proof.
  unfold ends_with. intros H. apply prefix_inv in H as [t Ht].
  exists (String.rev t).
  by rewrite <- (string_rev_involutive s), Ht, string_rev_app,
    string_rev_involutive.
Qed.

Lemma contains_slash_cons (c : Ascii.ascii) (s : string) :
  contains (String slash "") (String c s) =
  bool_decide (c = slash) || contains (String slash "") s.
Proof.
  change (contains (String slash "") (String c s))
    with (String.prefix (String slash "") (String c s) ||
          contains (String slash "") s).
  f_equal.
  change (String.prefix (String slash "") (String c s))
    with (if Ascii.ascii_dec slash c then String.prefix "" s else false).
  destruct (Ascii.ascii_dec slash c) as [<-|Hne].
  - rewrite bool_decide_eq_true_2 by done. by destruct s.
  - by rewrite bool_decide_eq_false_2 by congruence.
Qed.

Lemma contains_slash_app (a b : string) :
  contains (String slash "") (a +:+ b) =
  contains (String slash "") a || contains (String slash "") b.
Proof.
  induction a as [|c a IH]; [done|].
  change (String c a +:+ b) with (String c (a +:+ b)).
  by rewrite !contains_slash_cons, IH, orb_assoc.
Qed.

Lemma contains_unfold (sub s : string) :
  contains sub s =
  String.prefix sub s ||
  match s with
  | EmptyString => false
  | String _ rest => contains sub rest
  end.
Proof. by destruct s. Qed.

Lemma contains_middle (sub d t : string) :
  contains sub (d +:+ (sub +:+ t)) = true.
Proof.
  induction d as [|c d IH].
  - change ("" +:+ (sub +:+ t)) with (sub +:+ t).
    by rewrite contains_unfold, prefix_app.
  - change (String c d +:+ (sub +:+ t)) with (String c (d +:+ (sub +:+ t))).
    rewrite contains_unfold, IH. apply orb_true_r.
Qed.

(** The base name of a path whose last component is [b]. *)
Lemma basename_after_slash (d b : string) :
  contains (String slash "") b = false →
  basename (d +:+ String slash b) = b.
Proof.
  intros Hb. induction d as [|c d IH].
  - change ("" +:+ String slash b) with (String slash b). simpl basename.
    rewrite Hb. by destruct (decide (slash = slash)).
  - change (String c d +:+ String slash b) with (String c (d +:+ String slash b)).
    simpl basename. rewrite contains_slash_app, contains_slash_cons.
    rewrite bool_decide_eq_true_2 by done. by rewrite orb_true_r.
Qed.

(** A string has no separator, or splits at its last one. *)
Lemma last_component (s : string) :
  contains (String slash "") s = false ∨
  ∃ d b, s = d +:+ String slash b ∧ contains (String slash "") b = false.
Proof.
  induction s as [|c s IH]; [by left|].
  destruct IH as [Hfree|(d & b & -> & Hb)].
  - destruct (decide (c = slash)) as [->|Hne].
    + right. by exists ""%string, s.
    + left. rewrite contains_slash_cons, Hfree.
      by rewrite bool_decide_eq_false_2.
  - right. by exists (String c d), b.
Qed.

(** A separator-free suffix of a path is a suffix of its last component. *)
Lemma suffix_of_last_component (d b pre ext : string) :
  d +:+ String slash b = pre +:+ ext →
  contains (String slash "") ext = false →
  ∃ pre', b = pre' +:+ ext.
Proof.
  intros Heq Hext. revert pre Heq. induction d as [|c d IH]; intros pre Heq.
  - change ("" +:+ String slash b) with (String slash b) in Heq.
    destruct pre as [|c' pre'].
    + change ("" +:+ ext) with ext in Heq. subst ext.
      rewrite contains_slash_cons, bool_decide_eq_true_2 in Hext; done.
    + change (String c' pre' +:+ ext) with (String c' (pre' +:+ ext)) in Heq.
      injection Heq as _ ->. by exists pre'.
  - change (String c d +:+ String slash b)
      with (String c (d +:+ String slash b)) in Heq.
    destruct pre as [|c' pre'].
    + change ("" +:+ ext) with ext in Heq. subst ext.
      rewrite contains_slash_cons, contains_slash_app, contains_slash_cons in Hext.
      rewrite (bool_decide_eq_true_2 (slash = slash)) in Hext by done.
      by rewrite !orb_true_r in Hext.
    + change (String c' pre' +:+ ext) with (String c' (pre' +:+ ext)) in Heq.
      injection Heq as _ Heq. by apply (IH pre').
Qed.

(** The name splits at the dot of a dot-free extension. *)
Lemma split_last_dot_ext (pre letters : string) :
  split_last_dot letters = None →
  split_last_dot (pre +:+ String dot letters) = Some (pre, String dot letters).
Proof.
  intros Hl. induction pre as [|c pre IH].
  - change ("" +:+ String dot letters) with (String dot letters).
    simpl. rewrite Hl. by destruct (decide (dot = dot)).
  - change (String c pre +:+ String dot letters)
      with (String c (pre +:+ String dot letters)).
    simpl. by rewrite IH.
Qed.

End PathFacts.

Section DispatchFacts.
Import FileTracking FileLoaders.

(** Every supported extension is a dot followed by dot-free, separator-free,
    lower-case letters. *)
Lemma supported_extension_shape (ext : string) :
  ext ∈ supported_extensions →
  ∃ letters, ext = String dot letters ∧ split_last_dot letters = None ∧
             contains (String slash "") ext = false ∧ lower ext = ext.
Proof.
  unfold supported_extensions. rewrite !elem_of_cons, !elem_of_nil.
  intros H.
  repeat match goal with H : _ ∨ _ |- _ => destruct H as [->|H] end;
    try done; eexists; (split; [reflexivity|]); by vm_compute.
Qed.

Lemma get_file_loader_supported (path : string) :
  lower (splitext_ext path) ∈ supported_extensions →
  is_Some (get_file_loader path).
Proof.
  unfold get_file_loader. cbv zeta.
  generalize (lower (splitext_ext path)). intros ext.
  unfold supported_extensions.
  repeat case_decide; intros Hext; try (by eexists);
    set_unfold; intuition congruence.
Qed.

Lemma all_dots_leading (pre letters : string) :
  all_dots pre = true → ∃ r, pre +:+ String dot letters = String dot r.
Proof.
  destruct pre as [|c p]; [by exists letters|].
  simpl. intros H. apply andb_true_iff in H as [Hc _].
  apply bool_decide_eq_true in Hc as ->.
  by exists (p +:+ String dot letters).
Qed.

(** For a listed file, [splitext] finds the very extension the listing
    matched. *)
Lemma listed_extension (kd rel ext : string) :
  ext ∈ supported_extensions →
  ends_with ext rel = true →
  hidden rel = false →
  splitext_ext (path_join kd rel) = ext.
Proof.
  intros Hext Hends Hhidden.
  destruct (supported_extension_shape ext Hext)
    as (letters & -> & Hletters & Hfree & _).
  destruct (ends_with_inv _ _ Hends) as [pre Hrel].
  apply orb_false_iff in Hhidden as [Hstart Hinner].
  assert (∃ pre',
    basename (path_join kd rel) = pre' +:+ String dot letters ∧
    all_dots pre' = false) as (pre' & Hbase & Hdots).
  { destruct (last_component rel) as [Hnone|(d & b & Hsplit & Hb)].
    - exists pre. split.
      + unfold path_join. by rewrite basename_after_slash, Hrel.
      + destruct (all_dots pre) eqn:Hall; [|done].
        destruct (all_dots_leading pre letters Hall) as [r Hr].
        rewrite Hrel, Hr in Hstart. simpl in Hstart.
        by destruct r.
    - assert (∃ pre', b = pre' +:+ String dot letters) as [pre' Hb'].
      { apply (suffix_of_last_component d b pre); [congruence|done]. }
      exists pre'. split.
      + unfold path_join. rewrite Hsplit.
        change (kd +:+ String slash (d +:+ String slash b))
          with (kd +:+ (String slash d +:+ String slash b)).
        rewrite <- string_app_assoc, basename_after_slash by done. done.
      + destruct (all_dots pre') eqn:Hall; [|done].
        destruct (all_dots_leading pre' letters Hall) as [r Hr].
        rewrite Hsplit, Hb', Hr in Hinner.
        change (d +:+ String slash (String dot r))
          with (d +:+ (String slash "." +:+ r)) in Hinner.
        by rewrite contains_middle in Hinner. }
  unfold splitext_ext. rewrite Hbase, split_last_dot_ext by done.
  by rewrite Hdots.
Qed.

Lemma listed_file_has_loader (kd : string) (dir : gmap string file)
    (rel : string) :
  rel ∈ current_rel_paths dir →
  is_Some (get_file_loader (path_join kd rel)).
Proof.
  intros Hin. apply elem_of_current_rel_paths in Hin as (_ & Hh & ext & Hext & He).
  apply get_file_loader_supported.
  rewrite (listed_extension kd rel ext Hext He Hh).
  destruct (supported_extension_shape ext Hext) as (_ & _ & _ & _ & ->).
  done.
Qed.

End DispatchFacts.

Section DispatchClaims.
Import FileTracking FileLoaders.

(** Every path a completed scan reports is dispatched to a loader: the
    extension [splitext] finds on it is the supported extension its name
    was listed for, so no reported file is passed over as unsupported. *)
Theorem reported_files_have_loaders (E : FileTracking.env) (kd : string)
    (w w1 : world) (changed : list string) (path : string) :
  check_files_changed E kd w = (inr changed, w1) →
  path ∈ changed →
  is_Some (get_file_loader path) ∧
  lower (splitext_ext path) ∈ supported_extensions.
Proof.
  rewrite check_files_changed_eq. cbv zeta.
  destruct (check_files _ _ _ _ _) as [e|st] eqn:Hloop; [done|].
  intros [= <- <-].
  rewrite (check_files_reports E kd _ _ _ _ (current_rel_paths_NoDup _) Hloop).
  simpl. intros Hin. apply list_elem_of_fmap in Hin as (rel & -> & Hrel).
  apply list_elem_of_filter in Hrel as [_ Hrel].
  apply elem_of_current_rel_paths in Hrel as (_ & Hh & ext & Hext & He).
  assert (lower (splitext_ext (path_join kd rel)) ∈ supported_extensions) as Hs.
  { rewrite (listed_extension kd rel ext Hext He Hh).
    by destruct (supported_extension_shape ext Hext) as (_ & _ & _ & _ & ->). }
  split; [by apply get_file_loader_supported|done].
Qed.

Lemma reported_files_have_loaders_witness :
  is_Some (get_file_loader "./knowledge_base/docs/guide.md") ∧
  lower (splitext_ext "./knowledge_base/docs/guide.md") ∈ supported_extensions.
Proof.
  apply (reported_files_have_loaders Fixtures.plain_digest Fixtures.kb
           Scan.mixed
           (check_files_changed Fixtures.plain_digest Fixtures.kb Scan.mixed).2
           ["./knowledge_base/docs/guide.md"%string]).
  - vm_compute. reflexivity.
  - constructor.
Defined.

End DispatchClaims.

Section ClearingClaims.
Import App Sessions.

(** Clearing a session empties its stored history and nothing else: the
    other sessions and the chain memory stay, so the buffered endpoint
    answers after the clearing exactly as it would have before, while the
    next streamed question of that session is prompted with an empty
    history. *)
Theorem clearing_spares_chain_memory (E : env) (question sid sid' : string)
    (a : app) :
  get_history sid (clear_history sid a) = [] ∧
  (sid' ≠ sid → get_history sid' (clear_history sid a) = get_history sid' a) ∧
  qa_chain (clear_history sid a) = qa_chain a ∧
  (query E question sid' (clear_history sid a)).1 = (query E question sid' a).1 ∧
  ∀ g a1, stream_query E question sid (clear_history sid a) = (EventStream g, a1) →
          g_history_text g = ""%string.
Proof.
  split_and!.
  - unfold get_history, clear_history. simpl. by rewrite lookup_insert_eq.
  - intros Hne. unfold get_history, clear_history. simpl.
    by rewrite lookup_insert_ne.
  - done.
  - by apply query_response_from_memory.
  - intros g a1 Hq.
    destruct (stream_query_stream E _ _ _ _ _ Hq) as (_ & _ & _ & _ & -> & _).
    unfold get_history, clear_history. simpl. by rewrite lookup_insert_eq.
Qed.

Lemma clearing_spares_chain_memory_witness :
  get_history "s2" (clear_history "s1" one_pair) = get_history "s2" one_pair ∧
  g_history_text
    (Generator "s1" "q1" [Fixtures.paris_doc]
       "Paris is the capital of France." "") = ""%string.
Proof.
  destruct (clearing_spares_chain_memory Fixtures.paris_env "q1" "s1" "s2"
              one_pair) as (_ & Hother & _ & _ & Hprompt).
  split.
  - apply Hother. discriminate.
  - apply (Hprompt _ (stream_query Fixtures.paris_env "q1" "s1"
                        (clear_history "s1" one_pair)).2).
    vm_compute. reflexivity.
Defined.

End ClearingClaims.
